(** * quicktype: the IR graph, its union representation and the
    renderer scaffolding

    A shallow embedding of [IRGraph.purs] (the PureScript type graph) and of
    the parts of [ConvenienceRenderer.ts] and [Language/TypeScript.ts] that
    look names up and render types, followed by the properties of these
    functions.

    PureScript's [Int] is a 32-bit signed integer.  The only operations the
    embedded code performs on the [primitives] bit set are [Bits.and] and
    [Bits.xor], which agree with [Z.land] and [Z.lxor] on two's complement
    integers and never leave the 32-bit range, so [Int] is modelled as [Z]
    without a wrap-around.  [Data.Map] and [Data.Set] are modelled as
    [gmap] and [gset]; [Data.Sequence] as [list]. *)

From stdpp Require Import gmap strings list fin_maps sorting.
From Stdlib Require Import ZArith Lia Ascii.

Set Warnings "-register-all,-clear-no-such-hyp".

Local Open Scope Z_scope.

(** ** The monads the PureScript code is polymorphic over *)

Class Monad (m : Type → Type) := {
  pure : ∀ {A}, A → m A;
  bind : ∀ {A B}, m A → (A → m B) → m B
}.

Declare Scope ps_scope.
Delimit Scope ps_scope with ps.
Notation "c >>= k" := (bind c k) (at level 58, left associativity) : ps_scope.
Notation "c >> d" := (bind c (λ _, d)) (at level 58, left associativity) : ps_scope.
Local Open Scope ps_scope.

(** [Control.Monad.when]. *)
Definition when {m} `{Monad m} (b : bool) (c : m unit) : m unit :=
  if b then c else pure tt.

(** [Data.Identity]. *)
Record Identity (A : Type) := mkIdentity { extract : A }.
Arguments mkIdentity {A} _.
Arguments extract {A} _.

#[export] Instance Identity_Monad : Monad Identity := {|
  pure := λ A a, mkIdentity a;
  bind := λ A B c k, k (extract c)
|}.

(** A writer over the list of visited values, used to observe the calls a
    monadic traversal makes to its callback, in order. *)
Record Visit (V A : Type) := mkVisit { visited : list V; result : A }.
Arguments mkVisit {V A} _ _.
Arguments visited {V A} _.
Arguments result {V A} _.

#[export] Instance Visit_Monad V : Monad (Visit V) := {|
  pure := λ A a, mkVisit [] a;
  bind := λ A B c k,
    let r := k (result c) in mkVisit (visited c ++ visited r) (result r)
|}.

Definition visit {V} (v : V) : Visit V unit := mkVisit [v] tt.

(** Running a callback over a list, left to right. *)
Fixpoint for_ {m} `{Monad m} {A} (l : list A) (f : A → m unit) : m unit :=
  match l with
  | [] => pure tt
  | x :: l' => f x >> for_ l' f
  end.

(** Collecting the results of a callback over a list, left to right. *)
Definition traverse {m} `{Monad m} {A B} (f : A → m B) : list A → m (list B) :=
  fix go l :=
    match l with
    | [] => pure []
    | x :: l' => f x >>= λ y, go l' >>= λ ys, pure (y :: ys)
    end.

(** ** IRGraph.purs *)

Module IRGraph.

Inductive Named (A : Type) :=
  | Given (x : A)
  | Inferred (x : A).
Arguments Given {A} _.
Arguments Inferred {A} _.

Definition updateGiven {A B} (f : option A → B) (n : Named A) : Named B :=
  match n with
  | Given x => Given (f (Some x))
  | _ => Given (f None)
  end.

Definition updateInferred {A} (f : A → A) (n : Named A) : Named A :=
  match n with
  | Inferred x => Inferred (f x)
  | given => given
  end.

Definition namedValue {A} (n : Named A) : A :=
  match n with
  | Given x => x
  | Inferred x => x
  end.

Definition mapToInferred {A B} (f : A → B) (n : Named A) : Named B :=
  Inferred (f (namedValue n)).

Definition unifyNamed {A} (f : A → A → A) (a b : Named A) : Named A :=
  match a, b with
  | Given ga, Given gb => Given (f ga gb)
  | Given _, _ => a
  | _, Given _ => b
  | Inferred ia, Inferred ib => Inferred (f ia ib)
  end.

Record IREnumData := mkIREnumData {
  enumNames : Named (gset string);
  values : gset string
}.

Inductive IRType :=
  | IRNoInformation
  | IRAnyType
  | IRNull
  | IRInteger
  | IRDouble
  | IRBool
  | IRString
  | IRArray (a : IRType)
  | IRClass (i : Z)
  | IRMap (m : IRType)
  | IREnum (e : IREnumData)
  | IRUnion (u : IRUnionRep)
with IRUnionRep :=
  | mkIRUnionRep (names : Named (gset string)) (primitives : Z)
      (arrayType : option IRType) (classRef : option Z)
      (mapType : option IRType) (enumData : option IREnumData).

Definition names (u : IRUnionRep) := let '(mkIRUnionRep n _ _ _ _ _) := u in n.
Definition primitives (u : IRUnionRep) := let '(mkIRUnionRep _ p _ _ _ _) := u in p.
Definition arrayType (u : IRUnionRep) := let '(mkIRUnionRep _ _ a _ _ _) := u in a.
Definition classRef (u : IRUnionRep) := let '(mkIRUnionRep _ _ _ c _ _) := u in c.
Definition mapType (u : IRUnionRep) := let '(mkIRUnionRep _ _ _ _ m _) := u in m.
Definition enumData (u : IRUnionRep) := let '(mkIRUnionRep _ _ _ _ _ e) := u in e.

Definition irUnion_Null : Z := 2.
Definition irUnion_Integer : Z := 4.
Definition irUnion_Double : Z := irUnion_Integer + 8.
Definition irUnion_Number : Z := irUnion_Double.
Definition irUnion_Bool : Z := 16.
Definition irUnion_String : Z := 32.

(** [derive instance eq...]: structural equality. *)
#[export] Instance Named_eq_dec `{EqDecision A} : EqDecision (Named A).
Proof. solve_decision. Defined.

#[export] Instance IREnumData_eq_dec : EqDecision IREnumData.
Proof. solve_decision. Defined.

Fixpoint IRType_eq_dec (x y : IRType) {struct x} : {x = y} + {x ≠ y}
with IRUnionRep_eq_dec (x y : IRUnionRep) {struct x} : {x = y} + {x ≠ y}.
Proof.
  - decide equality; solve [apply Z.eq_dec | apply IREnumData_eq_dec].
  - decide equality;
      try solve [apply (option_eq_dec (A:=IREnumData)) | apply (option_eq_dec (A:=Z))
                | apply (Named_eq_dec (A:=gset string)) | apply Z.eq_dec];
      decide equality.
Defined.

#[export] Instance IRType_EqDecision : EqDecision IRType := IRType_eq_dec.
#[export] Instance IRUnionRep_EqDecision : EqDecision IRUnionRep := IRUnionRep_eq_dec.

Record IRClassData := mkIRClassData {
  classNames : Named (gset string);
  properties : gmap string IRType
}.

Inductive Entry :=
  | NoType
  | Class (cd : IRClassData)
  | Redirect (i : Z).

Record IRGraph := mkIRGraph {
  classes : list Entry;
  toplevels : gmap string IRType
}.

Definition emptyGraph : IRGraph := mkIRGraph [] ∅.

(** What a partial PureScript function does: it returns, it crashes (a
    [fromJust Nothing] or a failed pattern match under [unsafePartial]), or
    the fuel given to the model of its recursion runs out. *)
Inductive Outcome (A : Type) :=
  | Done (a : A)
  | Crash
  | OutOfFuel.
Arguments Done {A} _.
Arguments Crash {A}.
Arguments OutOfFuel {A}.

(** [Seq.index]: [Nothing] outside the sequence. *)
Definition seqIndex {A} (i : Z) (s : list A) : option A :=
  if decide (i < 0) then None else s !! Z.to_nat i.

(** [followIndex]; every call of the source consumes one unit of fuel. *)
Fixpoint followIndex (fuel : nat) (graph : IRGraph) (index : Z)
  : Outcome (Z * IRClassData) :=
  match fuel with
  | O => OutOfFuel
  | S fuel' =>
      match seqIndex index (classes graph) with
      | None => Crash
      | Some (Class cd) => Done (index, cd)
      | Some (Redirect i) => followIndex fuel' graph i
      | Some NoType => Crash
      end
  end.

Definition mapClasses {A} (f : Z → IRClassData → A) (graph : IRGraph) : list A :=
  let mapper (i : nat) (e : Entry) :=
    match e with
    | NoType => []
    | Redirect _ => []
    | Class cd => [f (Z.of_nat i) cd]
    end in
  concat (imap mapper (classes graph)).

Definition mapClassesInSeq (f : Z → IRClassData → IRClassData) (entries : list Entry)
  : list Entry :=
  let entryMapper (i : nat) (e : Entry) :=
    match e with
    | Class cd => Class (f (Z.of_nat i) cd)
    | x => x
    end in
  imap entryMapper entries.

Definition classesInGraph : IRGraph → list (Z * IRClassData) := mapClasses pair.

Definition canBeNull (t : IRType) : bool :=
  match t with
  | IRAnyType => true
  | IRNull => true
  | IRUnion u => bool_decide (Z.land (primitives u) irUnion_Null ≠ 0)
  | IRNoInformation => true
  | _ => false
  end.

Record RemovedNull := mkRemovedNull { hasNull : bool; nonNullUnion : IRUnionRep }.

Definition removeNullFromUnion (union : IRUnionRep) : RemovedNull :=
  let '(mkIRUnionRep n primitives a c m e) := union in
  if bool_decide (Z.land irUnion_Null primitives = 0) then
    mkRemovedNull false union
  else
    mkRemovedNull true (mkIRUnionRep n (Z.lxor irUnion_Null primitives) a c m e).

Definition unionHasArray (u : IRUnionRep) : option IRType := IRArray <$> arrayType u.
Definition unionHasClass (u : IRUnionRep) : option IRType := IRClass <$> classRef u.
Definition unionHasMap (u : IRUnionRep) : option IRType := IRMap <$> mapType u.

Definition isInPrimitives (primitives bit : Z) : bool :=
  bool_decide (Z.land bit primitives ≠ 0).

Definition isInNumber (primitives bits : Z) : bool :=
  bool_decide (Z.land irUnion_Number primitives = bits).

Definition forUnion_ {m} `{Monad m} (u : IRUnionRep) (f : IRType → m unit) : m unit :=
  let '(mkIRUnionRep _ primitives arrayType classRef mapType _) := u in
  let inPrimitives := isInPrimitives primitives in
  let inNumber := isInNumber primitives in
  when (inPrimitives irUnion_Null) (f IRNull) >>
  when (inNumber irUnion_Integer) (f IRInteger) >>
  when (inNumber irUnion_Double) (f IRDouble) >>
  when (inPrimitives irUnion_Bool) (f IRBool) >>
  when (inPrimitives irUnion_String) (f IRString) >>
  match arrayType with
  | Some a => f (IRArray a)
  | None => pure tt
  end >>
  match classRef with
  | Some i => f (IRClass i)
  | None => pure tt
  end >>
  match mapType with
  | Some m => f (IRMap m)
  | None => pure tt
  end.

Definition mapUnionM {A m} `{Monad m} (f : IRType → m A) (u : IRUnionRep) : m (list A) :=
  let '(mkIRUnionRep _ primitives arrayType classRef mapType _) := u in
  let mapPrimitive (predicate : Z → Z → bool) (bit : Z) (t : IRType) (l : list A)
    : m (list A) :=
    if predicate primitives bit then
      f t >>= λ result, pure (result :: l)
    else
      pure l in
  let mapGeneral {X} (x : option X) (convert : X → IRType) (l : list A) : m (list A) :=
    match x with
    | None => pure l
    | Some x => f (convert x) >>= λ result, pure (result :: l)
    end in
  pure []
    >>= mapGeneral mapType IRMap
    >>= mapGeneral classRef IRClass
    >>= mapGeneral arrayType IRArray
    >>= mapPrimitive isInPrimitives irUnion_String IRString
    >>= mapPrimitive isInPrimitives irUnion_Bool IRBool
    >>= mapPrimitive isInNumber irUnion_Double IRDouble
    >>= mapPrimitive isInNumber irUnion_Integer IRInteger
    >>= mapPrimitive isInPrimitives irUnion_Null IRNull.

Definition mapUnion {A} (f : IRType → A) (u : IRUnionRep) : list A :=
  extract (mapUnionM (λ t, mkIdentity (f t)) u).

Definition unionToList : IRUnionRep → list IRType := mapUnion id.

Definition isUnionMember (t : IRType) (u : IRUnionRep) : bool :=
  let '(mkIRUnionRep _ primitives arrayType classRef mapType enumData) := u in
  let inPrimitives := isInPrimitives primitives in
  let inNumber := isInNumber primitives in
  match t with
  | IRNull => inPrimitives irUnion_Null
  | IRInteger => inNumber irUnion_Integer
  | IRDouble => inNumber irUnion_Double
  | IRBool => inPrimitives irUnion_Bool
  | IRString => inPrimitives irUnion_String
  | IRArray a => from_option (λ x, bool_decide (a = x)) false arrayType
  | IRClass i => from_option (λ x, bool_decide (i = x)) false classRef
  | IRMap m => from_option (λ x, bool_decide (m = x)) false mapType
  | IREnum ed => from_option (λ x, bool_decide (ed = x)) false enumData
  | IRUnion _ => false
  | IRAnyType => false
  | IRNoInformation => false
  end.

Definition nullableFromUnion (union : IRUnionRep) : option IRType :=
  let r := removeNullFromUnion union in
  if hasNull r then
    match unionToList (nonNullUnion r) with
    | [x] => Some x
    | _ => None
    end
  else
    None.

Definition emptyUnion : IRUnionRep :=
  mkIRUnionRep (Inferred ∅) 0 None None None None.

(** *** Regathering class names

    [singular] lives in [Data.String.Util], which is not part of the
    sources at hand; the functions below take it as a parameter. *)

Section Regather.
Variable singular : string → string.

Definition combine (l : list (gmap Z (gset string))) : gmap Z (gset string) :=
  foldr (union_with (λ a b, Some (a ∪ b))) ∅ l.

(** The source's [fromClass] is [gatherFromType name (IRClass i)], which
    is the singleton map written out here. *)
Fixpoint gatherFromType (name : string) (t : IRType) : gmap Z (gset string) :=
  match t with
  | IRClass i => {[ i := {[ name ]} ]}
  | IRArray a => gatherFromType (singular name) a
  | IRMap m => gatherFromType (singular name) m
  | IRUnion (mkIRUnionRep _ _ arrayType classRef mapType _) =>
      let fromArray :=
        match arrayType with Some a => gatherFromType name a | None => ∅ end in
      let fromMap :=
        match mapType with Some m => gatherFromType name m | None => ∅ end in
      let fromClass :=
        match classRef with Some i => {[ i := {[ name ]} ]} | None => ∅ end in
      combine [fromArray; fromMap; fromClass]
  | _ => ∅
  end.

Definition gatherFromClassData (_ : Z) (cd : IRClassData) : gmap Z (gset string) :=
  combine (map (λ '(n, t), gatherFromType n t) (map_to_list (properties cd))).

Definition newNames (graph : IRGraph) : gmap Z (gset string) :=
  combine (mapClasses gatherFromClassData graph).

Definition classMapper (graph : IRGraph) (i : Z) (cd : IRClassData) : IRClassData :=
  let newNamesForClass :=
    updateInferred (λ old, default old (newNames graph !! i)) (classNames cd) in
  mkIRClassData newNamesForClass (properties cd).

Definition regatherClassNames (graph : IRGraph) : IRGraph :=
  mkIRGraph (mapClassesInSeq (classMapper graph) (classes graph)) (toplevels graph).

Definition reassign (name : Named string) (names : Named (gset string))
  : Named (gset string) :=
  match name with
  | Given g =>
      updateGiven (λ o, match o with None => {[ g ]} | Some s => {[ g ]} ∪ s end) names
  | Inferred i => updateInferred (λ _, {[ i ]}) names
  end.

Fixpoint updateType (name : Named string) (t : IRType) : IRType :=
  match t with
  | IRArray a => IRArray (updateType name a)
  | IRMap m => IRMap (updateType name m)
  | IRUnion (mkIRUnionRep names primitives arrayType classRef mapType enumData) =>
      let newNames := reassign name names in
      let singularName := mapToInferred singular name in
      let newArrayType :=
        match arrayType with Some a => Some (updateType singularName a) | None => None end in
      let newMapType :=
        match mapType with Some m => Some (updateType singularName m) | None => None end in
      IRUnion (mkIRUnionRep newNames primitives newArrayType classRef newMapType enumData)
  | _ => t
  end.

Definition regatherUnionNames (graph : IRGraph) : IRGraph :=
  let classMapper (cd : IRClassData) :=
    mkIRClassData (classNames cd)
      (map_imap (λ p t, Some (updateType (Inferred p) t)) (properties cd)) in
  let newClasses := mapClassesInSeq (λ _, classMapper) (classes graph) in
  let newTopLevels := map_imap (λ n t, Some (updateType (Given n) t)) (toplevels graph) in
  mkIRGraph newClasses newTopLevels.

(** [singular] applied [k] times. *)
Fixpoint singularN (k : nat) (name : string) : string :=
  match k with
  | O => name
  | S k' => singularN k' (singular name)
  end.

(** [wraps k t i]: [t] is [Class(i)] under [k] array or map levels, the
    innermost of which may hold [i] in the class slot of a union. *)
Fixpoint wraps (k : nat) (t : IRType) (i : Z) : Prop :=
  match k, t with
  | O, IRClass j => j = i
  | O, IRUnion u => classRef u = Some i
  | S k', IRArray a => wraps k' a i
  | S k', IRMap m => wraps k' m i
  | _, _ => False
  end.
End Regather.

(** *** The class arena *)

(** [redirectsTo cs n i j]: following [n] redirects from entry [i] ends at
    the live entry [j]. *)
Inductive redirectsTo (cs : list Entry) : nat → Z → Z → Prop :=
  | redirects_here i cd :
      seqIndex i cs = Some (Class cd) → redirectsTo cs 0 i i
  | redirects_step n i k j :
      seqIndex i cs = Some (Redirect k) → redirectsTo cs n k j →
      redirectsTo cs (S n) i j.

(** The class indices a type mentions. *)
Fixpoint classRefs (t : IRType) : list Z :=
  match t with
  | IRClass i => [i]
  | IRArray a => classRefs a
  | IRMap m => classRefs m
  | IRUnion (mkIRUnionRep _ _ arrayType classRef mapType _) =>
      match arrayType with Some a => classRefs a | None => [] end ++
      match classRef with Some i => [i] | None => [] end ++
      match mapType with Some m => classRefs m | None => [] end
  | _ => []
  end.

(** The indices of the entries that can be reached from the top levels:
    through the types of the top levels, through redirects, and through
    the property types of the classes reached. *)
Inductive reachable (g : IRGraph) : Z → Prop :=
  | reachable_toplevel name t i :
      toplevels g !! name = Some t → i ∈ classRefs t → reachable g i
  | reachable_redirect i k :
      reachable g i → seqIndex i (classes g) = Some (Redirect k) → reachable g k
  | reachable_property i cd p t k :
      reachable g i → seqIndex i (classes g) = Some (Class cd) →
      properties cd !! p = Some t → k ∈ classRefs t → reachable g k.

(** The indices the graph uses: in a top level, in a property of a class
    of the arena, or as the target of a redirect. *)
Definition indexUsed (g : IRGraph) (i : Z) : Prop :=
  (∃ name t, toplevels g !! name = Some t ∧ i ∈ classRefs t) ∨
  (∃ k cd p t, seqIndex k (classes g) = Some (Class cd) ∧
               properties cd !! p = Some t ∧ i ∈ classRefs t) ∨
  (∃ k, seqIndex k (classes g) = Some (Redirect i)).

(** Arena integrity: every index in use is in bounds, and the redirect
    chain that starts there is finite and ends at a live class. *)
Definition arenaIntegrity (g : IRGraph) : Prop :=
  ∀ i, indexUsed g i →
    (0 ≤ i < Z.of_nat (length (classes g))) ∧ ∃ n j, redirectsTo (classes g) n i j.

(** *** The remaining functions of the module *)

(** [map] of the [Functor] instance of [Named]. *)
Definition mapNamed {A B} (f : A → B) (n : Named A) : Named B :=
  match n with
  | Given x => Given (f x)
  | Inferred x => Inferred (f x)
  end.

Definition makeClass (name : Named string) (properties : gmap string IRType)
  : IRClassData :=
  mkIRClassData (mapNamed (λ x, {[ x ]}) name) properties.

Definition getClassFromGraph (fuel : nat) (graph : IRGraph) (index : Z)
  : Outcome IRClassData :=
  match followIndex fuel graph index with
  | Done r => Done (snd r)
  | Crash => Crash
  | OutOfFuel => OutOfFuel
  end.

Definition isArray (t : IRType) : bool :=
  match t with IRArray _ => true | _ => false end.

Definition isClass (t : IRType) : bool :=
  match t with IRClass _ => true | _ => false end.

Definition isMap (t : IRType) : bool :=
  match t with IRMap _ => true | _ => false end.

(** [M.fromFoldable] lets a later entry of the list win and [list_to_map]
    an earlier one; the keys of the list built here are those of [ma], each
    at most once, so the two agree. *)
Definition matchingProperties {V} `{EqDecision V} (ma mb : gmap string V)
  : gmap string V :=
  let getFromB (kv : string * V) :=
    let '(k, va) := kv in
    match mb !! k with
    | Some vb => if decide (va = vb) then [(k, vb)] else []
    | None => []
    end in
  list_to_map (concat (map getFromB (map_to_list ma))).

(** *** Filtering types

    [filterType] recurses through [mapUnion], on types it builds from the
    slots of a union; the recursion is modelled with fuel, and [None]
    stands for fuel that ran out. *)

Section FilterTypes.
Context {A : Type} `{Countable A}.
Variable predicate : IRType → option A.

(** [S.unions] of results, none of which may have run out of fuel. *)
Fixpoint unions (l : list (option (gset A))) : option (gset A) :=
  match l with
  | [] => Some ∅
  | o :: l' =>
      match o, unions l' with
      | Some x, Some y => Some (x ∪ y)
      | _, _ => None
      end
  end.

Fixpoint filterType (fuel : nat) (t : IRType) : option (gset A) :=
  match fuel with
  | O => None
  | S fuel' =>
      let recurseType :=
        match t with
        | IRArray t' => filterType fuel' t'
        | IRMap t' => filterType fuel' t'
        | IRUnion r => unions (mapUnion (filterType fuel') r)
        | _ => Some ∅
        end in
      match recurseType with
      | None => None
      | Some l =>
          match predicate t with
          | None => Some l
          | Some x => Some ({[ x ]} ∪ l)
          end
      end
  end.

Definition filterClass (fuel : nat) (cd : IRClassData) : option (gset A) :=
  unions (map (filterType fuel) (map_to_list (properties cd)).*2).

Definition filterTypes (fuel : nat) (graph : IRGraph) : option (gset A) :=
  let fromTopLevels := unions (map (filterType fuel) (map_to_list (toplevels graph)).*2) in
  let fromGraph := unions (mapClasses (λ _ cd, filterClass fuel cd) graph) in
  match fromTopLevels, fromGraph with
  | Some a, Some b => Some (a ∪ b)
  | _, _ => None
  end.
End FilterTypes.

End IRGraph.

(** Modelled from the spec: [Data.String.Util.singular] is not among the
    sources; the spec calls it a simple depluralizer that strips a trailing
    [s], [es] or [ies], the last one mapping to [y].  It is used only to
    instantiate the parameter of the regathering functions on examples. *)
Fixpoint singular (s : string) : string :=
  match s with
  | "ies" => "y"
  | "es" => ""
  | "s" => ""
  | String c s' => String c (singular s')
  | EmptyString => EmptyString
  end%string.

(** ** ConvenienceRenderer.ts and Language/TypeScript.ts *)

Module Renderer.

Local Open Scope string_scope.

(** Modelled from the spec: [Type.ts], [Naming.ts], [Source.ts],
    [Renderer.ts] and [Support.ts] are not among the sources.  The types
    below follow the imports and the uses the two renderer files make of
    them: a [Type] is a primitive, an array, a map or a [NamedType] (class,
    enum or union); a named type has an identity under which the renderer's
    maps store it, its combined name, and its property names, cases or
    members. *)
Definition TypeId := nat.

Inductive PrimitiveKind := KAny | KNull | KBool | KInteger | KDouble | KString.

Inductive Type_ :=
  | PrimitiveType (kind : PrimitiveKind)
  | ArrayType (items : Type_)
  | MapType (values : Type_)
  | OfNamedType (t : NamedType)
with NamedType :=
  | ClassType (id : TypeId) (combined : string) (properties : list string)
  | EnumType (id : TypeId) (combined : string) (cases : list string)
  | UnionType (id : TypeId) (combined : string) (children : list Type_).

Definition typeId (t : NamedType) : TypeId :=
  match t with
  | ClassType id _ _ | EnumType id _ _ | UnionType id _ _ => id
  end.

Definition combined (t : NamedType) : string :=
  match t with
  | ClassType _ c _ | EnumType _ c _ | UnionType _ c _ => c
  end.

Definition isNull (t : Type_) : bool :=
  match t with PrimitiveType KNull => true | _ => false end.

(** Modelled from the spec: [matchType] of [Type.ts] dispatches on the kind
    of the type, in the order of its arguments. *)
Definition matchType {U} (t : Type_)
    (anyType nullType boolType integerType doubleType stringType : U)
    (arrayType : Type_ → U) (classType : NamedType → U) (mapType : Type_ → U)
    (enumType : NamedType → U) (unionType : NamedType → list Type_ → U) : U :=
  match t with
  | PrimitiveType KAny => anyType
  | PrimitiveType KNull => nullType
  | PrimitiveType KBool => boolType
  | PrimitiveType KInteger => integerType
  | PrimitiveType KDouble => doubleType
  | PrimitiveType KString => stringType
  | ArrayType items => arrayType items
  | OfNamedType (ClassType _ _ _ as c) => classType c
  | MapType values => mapType values
  | OfNamedType (EnumType _ _ _ as e) => enumType e
  | OfNamedType (UnionType _ _ children as u) => unionType u children
  end.

(** Modelled from the spec: [nullableFromUnion] of [Type.ts] returns the
    sole non-null member of a union that holds null and exactly one other
    member, and null otherwise. *)
Definition nullableFromUnion (children : list Type_) : option Type_ :=
  if existsb isNull children then
    match filter (λ t, isNull t = false) children with
    | [x] => Some x
    | _ => None
    end
  else None.

Inductive NamerKind := NamedTypeNamer | PropertyNamer.

Inductive Name :=
  | FixedName (name : string)
  | SimpleName (unstyled : string) (namer : NamerKind).

Inductive Sourcelike :=
  | SString (s : string)
  | SName (n : Name)
  | SArray (l : list Sourcelike).

(** What the renderer object holds.  [annotations] is the annotation stream
    of the scaffolding, to which a renderer may attach issues. *)
Record RendererState := mkRendererState {
  globalNamespace : list Name;
  topLevelNames : gmap string Name;
  namesForNamedTypes : gmap TypeId Name;
  propertyNames : gmap TypeId (gmap string Name);
  annotations : list string
}.

(** The methods of the renderer run on its state and return, throw, or (in
    the model of a recursion that is not structural) run out of fuel. *)
Inductive Result (A : Type) :=
  | Returned (a : A) (s : RendererState)
  | Threw (msg : string) (s : RendererState)
  | Exhausted.
Arguments Returned {A} _ _.
Arguments Threw {A} _ _.
Arguments Exhausted {A}.

Definition Render (A : Type) : Type := RendererState → Result A.

#[export] Instance Render_Monad : Monad Render := {|
  pure := λ A a s, Returned a s;
  bind := λ A B c k s,
    match c s with
    | Returned a s' => k a s'
    | Threw msg s' => Threw msg s'
    | Exhausted => Exhausted
    end
|}.

Definition throw {A} (msg : string) : Render A := λ s, Threw msg s.
Definition get : Render RendererState := λ s, Returned s s.
Definition put (s : RendererState) : Render unit := λ _, Returned tt s.

(** Modelled from the spec: [defined] of [Support.ts] returns its argument
    unless it is undefined, in which case it throws. *)
Definition defined {A} (x : option A) : Render A :=
  match x with
  | Some a => pure a
  | None => throw "Defined value expected, but got undefined"
  end.

(** Modelled from the spec: [intercalate] of [Support.ts] puts a separator
    between the elements of a collection. *)
Fixpoint intercalate {A} (separator : A) (l : list A) : list A :=
  match l with
  | [] => []
  | [x] => [x]
  | x :: l' => x :: separator :: intercalate separator l'
  end.

(** [Namespace.add] registers a name with the namespace and returns it. *)
Definition addToGlobalNamespace (n : Name) : Render Name :=
  get >>= λ s,
  put (mkRendererState (globalNamespace s ++ [n]) (topLevelNames s)
         (namesForNamedTypes s) (propertyNames s) (annotations s)) >>
  pure n.

Definition setNameForNamedType (t : NamedType) (n : Name) : Render unit :=
  get >>= λ s,
  put (mkRendererState (globalNamespace s) (topLevelNames s)
         (<[typeId t := n]> (namesForNamedTypes s)) (propertyNames s) (annotations s)).

Definition setPropertyNames (c : NamedType) (names : gmap string Name) : Render unit :=
  get >>= λ s,
  put (mkRendererState (globalNamespace s) (topLevelNames s)
         (namesForNamedTypes s) (<[typeId c := names]> (propertyNames s)) (annotations s)).

(** The source takes a [UnionType]; on the other named types, which it is
    never called on, the model answers [true]. *)
Definition unionNeedsName (u : NamedType) : bool :=
  match u with
  | UnionType _ _ children => negb (bool_decide (is_Some (nullableFromUnion children)))
  | _ => true
  end.

Definition addNamedForNamedType (type : NamedType) : Render Name :=
  get >>= λ s,
  match namesForNamedTypes s !! typeId type with
  | Some existing => pure existing
  | None =>
      let name := combined type in
      addToGlobalNamespace (SimpleName name NamedTypeNamer) >>= λ named,
      setNameForNamedType type named >>
      pure named
  end.

Definition addPropertyNameds (c : NamedType) (classNamed : Name) : Render unit :=
  match c with
  | ClassType _ _ properties =>
      let names := list_to_map (map (λ name, (name, SimpleName name PropertyNamer)) properties) in
      setPropertyNames c names
  | _ => pure tt
  end.

Definition nameForNamedType (t : NamedType) : Render Name :=
  get >>= λ s,
  if negb (bool_decide (is_Some (namesForNamedTypes s !! typeId t))) then
    throw "Named type does not exist."
  else
    defined (namesForNamedTypes s !! typeId t).

Section TypeScript.
(** The name styles depend on the Unicode tables of an external package;
    they are parameters here, as are the renderer's options. *)
Variable typeNameStyle : string → string.
Variable inlineUnions : bool.

Definition namedTypeToNameForTopLevel (type : Type_) : option NamedType :=
  match type with
  | OfNamedType t => Some t
  | _ => None
  end.

(** [topLevelDependencyNames] is empty for this renderer, and both of its
    name styles for a top level are [typeNameStyle]. *)
Definition nameForTopLevel (type : Type_) (name : string) : Render Name :=
  let maybeNamedType := namedTypeToNameForTopLevel type in
  let styledName := typeNameStyle name in
  addToGlobalNamespace (FixedName styledName) >>= λ named,
  match maybeNamedType with
  | Some t => setNameForNamedType t named
  | None => pure tt
  end >>
  pure named.

(** The named types come from [allNamedTypesSeparated], which is not
    among the sources; they are arguments here. *)
Definition setUpNaming (topLevels : list (string * Type_))
    (classes enums unions : list NamedType) : Render unit :=
  let namedUnions := filter (λ u, unionNeedsName u = true) unions in
  get >>= λ s,
  put (mkRendererState [] ∅ ∅ ∅ (annotations s)) >>
  traverse (λ '(name, type), nameForTopLevel type name >>= λ n, pure (name, n)) topLevels
    >>= λ named,
  get >>= λ s,
  put (mkRendererState (globalNamespace s) (list_to_map named)
         (namesForNamedTypes s) (propertyNames s) (annotations s)) >>
  for_ classes (λ c, addNamedForNamedType c >>= λ named, addPropertyNameds c named) >>
  for_ namedUnions (λ u, addNamedForNamedType u >> pure tt) >>
  for_ enums (λ e, addNamedForNamedType e >> pure tt).

Definition caseNamer : Render NamerKind := throw "FIXME: support enums".

Definition dquote : string := String "034"%char EmptyString.

Fixpoint sourceFor (fuel : nat) (t : Type_) : Render Sourcelike :=
  match fuel with
  | O => λ _, Exhausted
  | S fuel' =>
      matchType t
        (pure (SString "any"))
        (pure (SString "null"))
        (pure (SString "boolean"))
        (pure (SString "number"))
        (pure (SString "number"))
        (pure (SString "string"))
        (λ items,
           sourceFor fuel' items >>= λ itemType,
           match items with
           | OfNamedType (UnionType _ _ children) =>
               if inlineUnions then
                 match nullableFromUnion children with
                 | Some nullable =>
                     sourceFor fuel' nullable >>= λ n, pure (SArray [n; SString "[]"])
                 | None => pure (SArray [SString "Array<"; itemType; SString ">"])
                 end
               else pure (SArray [itemType; SString "[]"])
           | ArrayType _ => pure (SArray [SString "Array<"; itemType; SString ">"])
           | _ => pure (SArray [itemType; SString "[]"])
           end)
        (λ classType, nameForNamedType classType >>= λ n, pure (SName n))
        (λ values,
           sourceFor fuel' values >>= λ v,
           pure (SArray [SString "{ [key: string]: "; v; SString " }"]))
        (λ enumType, throw "FIXME: support enums")
        (λ unionType children,
           if inlineUnions || bool_decide (is_Some (nullableFromUnion children)) then
             traverse (sourceFor fuel') children >>= λ cs,
             pure (SArray (intercalate (SString " | ") cs))
           else
             nameForNamedType unionType >>= λ n, pure (SName n))
  end.

Fixpoint typeMapTypeFor (t : Type_) : Render Sourcelike :=
  matchType t
    (pure (SString (dquote ++ "undefined" ++ dquote)))
    (pure (SString (dquote ++ "undefined" ++ dquote)))
    (pure (SString (dquote ++ "boolean" ++ dquote)))
    (pure (SString (dquote ++ "number" ++ dquote)))
    (pure (SString (dquote ++ "number" ++ dquote)))
    (pure (SString (dquote ++ "string" ++ dquote)))
    (λ items,
       typeMapTypeFor items >>= λ i, pure (SArray [SString "array("; i; SString ")"]))
    (λ classType,
       nameForNamedType classType >>= λ n,
       pure (SArray [SString ("object(" ++ dquote); SName n; SString (dquote ++ ")")]))
    (λ values,
       typeMapTypeFor values >>= λ v, pure (SArray [SString "map("; v; SString ")"]))
    (λ enumType, throw "FIXME: support enums")
    (λ unionType children,
       traverse typeMapTypeFor children >>= λ cs,
       pure (SArray (SString "union(" :: intercalate (SString ", ") cs ++ [SString ")"]))).
End TypeScript.

Section UnionFieldName.
(** [this.names], the final spellings of the names, belongs to
    [Renderer.ts] and the property namer's style to the language; both are
    parameters here. *)
Variable names : Name → option string.
Variable propertyNameStyle : string → string.

Fixpoint typeNameForUnionMember (t : Type_) : Render string :=
  matchType t
    (pure "anything")
    (pure "null")
    (pure "bool")
    (pure "integer")
    (pure "double")
    (pure "string")
    (λ arrayType, typeNameForUnionMember arrayType >>= λ n, pure (n ++ "_array"))
    (λ classType, nameForNamedType classType >>= λ n, defined (names n))
    (λ mapType, typeNameForUnionMember mapType >>= λ n, pure (n ++ "_map"))
    (λ enumType, pure "enum")
    (λ unionType _, pure "union").

Definition unionFieldName (fieldType : Type_) : Render string :=
  typeNameForUnionMember fieldType >>= λ n, pure (propertyNameStyle n).
End UnionFieldName.

End Renderer.

(** ** Notions used to state the properties *)

Module Kinds.
Import IRGraph.

(** The kinds a union holds, in the canonical order Null, Integer, Double,
    Bool, String, Array, Class, Map, Enum: a primitive is held when
    [isUnionMember] says so, a compound kind when its slot is occupied. *)
Definition slot {A} (convert : A → IRType) (x : option A) : list IRType :=
  match x with
  | Some a => [convert a]
  | None => []
  end.

Definition primitiveKinds : list IRType := [IRNull; IRInteger; IRDouble; IRBool; IRString].

Definition kinds (u : IRUnionRep) : list IRType :=
  filter (λ t, isUnionMember t u = true) primitiveKinds
    ++ slot IRArray (arrayType u)
    ++ slot IRClass (classRef u)
    ++ slot IRMap (mapType u)
    ++ slot IREnum (enumData u).

(** The position of a type's kind in the canonical order. *)
Definition rank (t : IRType) : nat :=
  match t with
  | IRNull => 0
  | IRInteger => 1
  | IRDouble => 2
  | IRBool => 3
  | IRString => 4
  | IRArray _ => 5
  | IRClass _ => 6
  | IRMap _ => 7
  | IREnum _ => 8
  | _ => 9
  end.

Definition setPrimitives (u : IRUnionRep) (p : Z) : IRUnionRep :=
  mkIRUnionRep (names u) p (arrayType u) (classRef u) (mapType u) (enumData u).

(** A union of null and an enumeration, and one of null, string and an
    enumeration. *)
Definition colors : IREnumData := mkIREnumData (Inferred {["color"%string]}) {["red"%string; "green"%string]}.
Definition nullOrColors : IRUnionRep :=
  mkIRUnionRep (Inferred ∅) irUnion_Null None None None (Some colors).
Definition nullStringOrColors : IRUnionRep :=
  mkIRUnionRep (Inferred ∅) (Z.lor irUnion_Null irUnion_String) None None None (Some colors).

End Kinds.

Module Examples.
Import IRGraph.

(** An arena with a chain of two redirects: entry 3 forwards to entry 0,
    which forwards to the live entry 2; entry 1 is empty.  The class refers
    to itself through the redirect at 0, and the top level through the one
    at 3. *)
Definition node : IRClassData :=
  mkIRClassData (Inferred {["node"%string]}) {["next"%string := IRClass 0]}.

Definition chained : IRGraph :=
  mkIRGraph [Redirect 2; NoType; Class node; Redirect 0] {["top"%string := IRClass 3]}.

End Examples.

Module Regathering.
Import IRGraph.

(** [gathered m i x]: the map [m] holds the name [x] for class [i]. *)
Definition gathered (m : gmap Z (gset string)) (i : Z) (x : string) : Prop :=
  ∃ s, m !! i = Some s ∧ x ∈ s.

(** [mentions g i p t]: a live class of [g] has a property [p] whose type
    [t] mentions class [i]. *)
Definition mentions (g : IRGraph) (i : Z) (p : string) (t : IRType) : Prop :=
  ∃ k c, seqIndex k (classes g) = Some (Class c) ∧ properties c !! p = Some t ∧
         i ∈ classRefs t.

(** Regathering as an addition of names: every live class keeps its
    properties, a given name set is kept, and an inferred name set keeps
    its names and gains the name of every property that refers to the
    class, in its singular form where the reference is the element of an
    array or of a map. *)
Definition addsNames (singular : string → string) (g : IRGraph) : Prop :=
  ∀ i cd, seqIndex i (classes g) = Some (Class cd) →
    ∃ cd', seqIndex i (classes (regatherClassNames singular g)) = Some (Class cd') ∧
      properties cd' = properties cd ∧
      match classNames cd with
      | Given _ => classNames cd' = classNames cd
      | Inferred old =>
          ∃ new, classNames cd' = Inferred new ∧ old ⊆ new ∧
            ∀ p t, mentions g i p t →
              (t = IRClass i → p ∈ new) ∧
              (t = IRArray (IRClass i) ∨ t = IRMap (IRClass i) → singular p ∈ new)
      end.

(** A class with one property, an array of a second class that was named
    after something else before. *)
Definition parent : IRClassData :=
  mkIRClassData (Inferred {["parent"%string]}) {["items"%string := IRArray (IRClass 1)]}.
Definition child : IRClassData :=
  mkIRClassData (Inferred {["other"%string]}) ∅.
Definition family : IRGraph :=
  mkIRGraph [Class parent; Class child] {["top"%string := IRClass 0]}.

(** The same with a property that is the second class itself. *)
Definition keeper : IRClassData :=
  mkIRClassData (Inferred {["keeper"%string]}) {["owner"%string := IRClass 1]}.
Definition household : IRGraph :=
  mkIRGraph [Class keeper; Class child] {["top"%string := IRClass 0]}.

End Regathering.

Module Chains.
Import IRGraph.

(** [hops cs n i k]: [n] redirects lead from entry [i] to entry [k],
    whatever entry [k] is. *)
Inductive hops (cs : list Entry) : nat → Z → Z → Prop :=
  | hops_here i : hops cs 0 i i
  | hops_step n i k j :
      seqIndex i cs = Some (Redirect k) → hops cs n k j → hops cs (S n) i j.

(** An arena of two redirects that forward to each other. *)
Definition looping : IRGraph := mkIRGraph [Redirect 1; Redirect 0] ∅.

(** Two maps of types whose types mention the same classes, key by key. *)
Definition sameRefs (m m' : gmap string IRType) : Prop :=
  ∀ p, classRefs <$> (m' !! p) = classRefs <$> (m !! p).

(** Two graphs with the same arena but for the names of the classes and
    what the types say besides the classes they mention. *)
Definition sameArena (g g' : IRGraph) : Prop :=
  length (classes g') = length (classes g) ∧
  sameRefs (toplevels g) (toplevels g') ∧
  ∀ i,
    match seqIndex i (classes g), seqIndex i (classes g') with
    | Some (Class cd), Some (Class cd') => sameRefs (properties cd) (properties cd')
    | Some (Redirect k), Some (Redirect k') => k = k'
    | Some NoType, Some NoType => True
    | None, None => True
    | _, _ => False
    end.

End Chains.

Module Parts.
Import IRGraph.

(** The primitive types a bit set lists, in the order of [unionToList]. *)
Definition primitivesOf (p : Z) : list IRType :=
  (if isInPrimitives p irUnion_Null then [IRNull] else []) ++
  (if isInNumber p irUnion_Integer then [IRInteger] else []) ++
  (if isInNumber p irUnion_Double then [IRDouble] else []) ++
  (if isInPrimitives p irUnion_Bool then [IRBool] else []) ++
  (if isInPrimitives p irUnion_String then [IRString] else []).

(** The types [filterType] looks at in a type: the type itself, the
    element types of arrays and maps, and what [unionToList] lists of a
    union, each with its own parts.  A class reference is not followed and
    the enumeration slot of a union is not looked at. *)
Fixpoint parts (t : IRType) : list IRType :=
  t :: match t with
       | IRArray a => parts a
       | IRMap m => parts m
       | IRUnion (mkIRUnionRep _ p a c m _) =>
           primitivesOf p ++
           match a with Some a => IRArray a :: parts a | None => [] end ++
           match c with Some i => [IRClass i] | None => [] end ++
           match m with Some m => IRMap m :: parts m | None => [] end
       | _ => []
       end.

(** Fuel that suffices for [filterType] on a type. *)
Fixpoint need (t : IRType) : nat :=
  match t with
  | IRArray a => S (need a)
  | IRMap m => S (need m)
  | IRUnion (mkIRUnionRep _ _ a _ m _) =>
      S (S (match a with Some a => need a | None => 0 end
            `max` match m with Some m => need m | None => 0 end))
  | _ => 1
  end.

(** What a predicate finds in a list of types. *)
Definition collected {A} `{Countable A} (predicate : IRType → option A)
    (l : list IRType) : gset A :=
  list_to_set (omap predicate l).

(** The types a graph holds: those of its top levels and of the
    properties of its live classes. *)
Definition held (g : IRGraph) (t : IRType) : Prop :=
  (∃ name, toplevels g !! name = Some t) ∨
  (∃ i cd p, seqIndex i (classes g) = Some (Class cd) ∧ properties cd !! p = Some t).

End Parts.

Module Rendering.
Import Renderer.

(** The state a method leaves the renderer in. *)
Definition finalState {A} (r : Result A) : option RendererState :=
  match r with
  | Returned _ s | Threw _ s => Some s
  | Exhausted => None
  end.

(** [recordsIssue c s]: run on [s], the method [c] leaves the renderer with
    an annotation stream that is not the one it found. *)
Definition recordsIssue {A} (c : Render A) (s : RendererState) : Prop :=
  ∃ s', finalState (c s) = Some s' ∧ annotations s' ≠ annotations s.

(** The named types [setUpNaming] assigns a name to: the top levels that
    are named types, the classes, the unions that need a name, and the
    enumerations. *)
Definition namedTopLevels (topLevels : list (string * Type_)) : list NamedType :=
  omap (λ '(_, type), namedTypeToNameForTopLevel type) topLevels.

Definition assigned (topLevels : list (string * Type_))
    (classes enums unions : list NamedType) : list TypeId :=
  typeId <$> (namedTopLevels topLevels ++ classes
                ++ filter (λ u, unionNeedsName u = true) unions ++ enums).

(** Every name in the map of named types is registered with the global
    namespace. *)
Definition namesRegistered (s : RendererState) : Prop :=
  ∀ id n, namesForNamedTypes s !! id = Some n → n ∈ globalNamespace s.

(** The invariant of name setup: the named types with a name are those
    with an identity in [ids], and their names are registered. *)
Definition setUp (s : RendererState) (ids : list TypeId) : Prop :=
  (∀ id, is_Some (namesForNamedTypes s !! id) ↔ id ∈ ids) ∧ namesRegistered s.

(** A renderer that has set up no names, and an enumeration. *)
Definition fresh : RendererState := mkRendererState [] ∅ ∅ ∅ [].
Definition suit : NamedType :=
  EnumType 7%nat "Suit" ["clubs"; "diamonds"; "hearts"; "spades"]%string.

End Rendering.

Module Renderable.
Import Renderer Rendering.

(** How deep the calls of [sourceFor] nest on a type: a union is entered
    only when unions are inlined or the union is nullable. *)
Fixpoint calls (inlineUnions : bool) (t : Type_) : nat :=
  match t with
  | ArrayType items => S (calls inlineUnions items)
  | MapType values => S (calls inlineUnions values)
  | OfNamedType (UnionType _ _ children) =>
      if inlineUnions || bool_decide (is_Some (nullableFromUnion children)) then
        S (list_max (map (calls inlineUnions) children))
      else 1
  | _ => 1
  end.

(** [mappable names t]: [t] holds no enumeration, and every class in it
    has a name in [names]; unions are looked into. *)
Fixpoint mappable (names : gmap TypeId Name) (t : Type_) : bool :=
  match t with
  | PrimitiveType _ => true
  | ArrayType items => mappable names items
  | MapType values => mappable names values
  | OfNamedType (ClassType id _ _) => bool_decide (is_Some (names !! id))
  | OfNamedType (EnumType _ _ _) => false
  | OfNamedType (UnionType _ _ children) => forallb (mappable names) children
  end.

(** [renderable inlineUnions names t]: as [mappable], but a union is
    looked into only when unions are inlined or the union is nullable;
    otherwise it has to have a name itself. *)
Fixpoint renderable (inlineUnions : bool) (names : gmap TypeId Name) (t : Type_) : bool :=
  match t with
  | PrimitiveType _ => true
  | ArrayType items => renderable inlineUnions names items
  | MapType values => renderable inlineUnions names values
  | OfNamedType (ClassType id _ _) => bool_decide (is_Some (names !! id))
  | OfNamedType (EnumType _ _ _) => false
  | OfNamedType (UnionType id _ children) =>
      if inlineUnions || bool_decide (is_Some (nullableFromUnion children)) then
        forallb (renderable inlineUnions names) children
      else bool_decide (is_Some (names !! id))
  end.

(** How [setUpNaming] names a named type: a top level gets the fixed name
    styled from the name of a top level it is the type of; any other class,
    union that needs a name, or enumeration gets a simple name proposed
    from its combined name, to be styled by the namer of named types. *)
Definition nameChosen (typeNameStyle : string → string)
    (topLevels : list (string * Type_)) (classes enums unions : list NamedType)
    (id : TypeId) (n : Name) : Prop :=
  (∃ name type t, (name, type) ∈ topLevels ∧
                  namedTypeToNameForTopLevel type = Some t ∧ typeId t = id ∧
                  n = FixedName (typeNameStyle name)) ∨
  ((id ∉ (typeId <$> namedTopLevels topLevels)) ∧
   ∃ t, (t ∈ classes ++ filter (λ u, unionNeedsName u = true) unions ++ enums) ∧
        typeId t = id ∧ n = SimpleName (combined t) NamedTypeNamer).

(** [fieldNameable spellings names t]: the class that [t] is, under any
    number of arrays and maps, has a name in [names] with a spelling;
    every type that is no class underneath qualifies. *)
Fixpoint fieldNameable (spellings : Name → option string) (names : gmap TypeId Name)
    (t : Type_) : bool :=
  match t with
  | ArrayType items => fieldNameable spellings names items
  | MapType values => fieldNameable spellings names values
  | OfNamedType (ClassType id _ _) =>
      match names !! id with
      | Some n => bool_decide (is_Some (spellings n))
      | None => false
      end
  | _ => true
  end.

(** A method that keeps the renderer as it is, and returns exactly when
    [ok] holds. *)
Definition keeps {A} (r : Result A) (s : RendererState) (ok : bool) : Prop :=
  match r with
  | Returned _ s' => s' = s ∧ ok = true
  | Threw _ s' => s' = s ∧ ok = false
  | Exhausted => False
  end.

(** The two messages the renderer throws. *)
Definition knownMessage (msg : string) : Prop :=
  msg = "FIXME: support enums"%string ∨ msg = "Named type does not exist."%string.

(** The same for a method modelled with fuel: it returns only with as much
    fuel as [d], and it runs out of fuel only with less. *)
Definition renders {A} (r : Result A) (s : RendererState) (ok : bool) (d fuel : nat)
  : Prop :=
  match r with
  | Returned _ s' => s' = s ∧ ok = true ∧ (d ≤ fuel)%nat
  | Threw msg s' => s' = s ∧ ok = false ∧ knownMessage msg
  | Exhausted => (fuel < d)%nat
  end.

(** What a method that reads the renderer may do on [s]: return with [s]
    kept and [ok] holding, or throw a known message with [s] kept and [ok]
    failing. *)
Definition reads {A} (r : Result A) (s : RendererState) (ok : bool) : Prop :=
  match r with
  | Returned _ s' => s' = s ∧ ok = true
  | Threw msg s' => s' = s ∧ ok = false ∧ knownMessage msg
  | Exhausted => False
  end.

End Renderable.

(** * Properties *)

(** ** The monads *)

Lemma visited_for_ {A} (l : list A) : visited (for_ l visit) = l.
Proof. induction l as [|x l IH]; simpl; [done | by rewrite IH]. Qed.

(** ** Names *)

Module NamedProps.
Import IRGraph.

(** C6: [unifyNamed f] of two given names is the given name of their
    payloads combined by [f]; of a given and an inferred name, in either
    order, it is the given one; of two inferred names it is the inferred
    name of their payloads combined by [f]. *)
Theorem unifyNamed_cases {A} (f : A → A → A) (x y : A) :
  unifyNamed f (Given x) (Given y) = Given (f x y) ∧
  unifyNamed f (Given x) (Inferred y) = Given x ∧
  unifyNamed f (Inferred x) (Given y) = Given y ∧
  unifyNamed f (Inferred x) (Inferred y) = Inferred (f x y).
Proof. repeat split. Qed.

(** A given name dominates: the result is inferred only when both
    arguments are. *)
Lemma unifyNamed_inferred {A} (f : A → A → A) (a b : Named A) (z : A) :
  unifyNamed f a b = Inferred z ↔
  ∃ x y, a = Inferred x ∧ b = Inferred y ∧ z = f x y.
Proof.
  split.
  - destruct a as [x|x], b as [y|y]; simpl; intros H; try discriminate.
    injection H as <-. eauto.
  - intros (x & y & -> & -> & ->). done.
Qed.

End NamedProps.

(** ** Nullability *)

Module NullProps.
Import IRGraph Kinds.

Lemma land_pow2 (p k : Z) :
  0 ≤ k → Z.land p (2 ^ k) = if Z.testbit p k then 2 ^ k else 0.
Proof.
  intros Hk. apply Z.bits_inj'. intros n Hn. rewrite Z.land_spec.
  destruct (decide (n = k)) as [->|Hne].
  - rewrite Z.pow2_bits_true by done.
    destruct (Z.testbit p k); simpl; [by rewrite Z.pow2_bits_true | by rewrite Z.testbit_0_l].
  - rewrite Z.pow2_bits_false, andb_false_r by lia.
    destruct (Z.testbit p k); [by rewrite Z.pow2_bits_false by lia | by rewrite Z.testbit_0_l].
Qed.

Lemma land_Null_testbit (p : Z) : Z.land p irUnion_Null ≠ 0 ↔ Z.testbit p 1 = true.
Proof.
  unfold irUnion_Null. change 2 with (2 ^ 1). rewrite land_pow2 by lia.
  destruct (Z.testbit p 1); simpl; split; intros; done.
Qed.

(** C10: [canBeNull] holds of the any type, of null, of the placeholder for
    a missing type, and of the unions whose null bit is set, and of no
    other type. *)
Theorem canBeNull_iff (t : IRType) :
  canBeNull t = true ↔
  t = IRAnyType ∨ t = IRNull ∨ t = IRNoInformation ∨
  ∃ u, t = IRUnion u ∧ Z.testbit (primitives u) 1 = true.
Proof.
  destruct t; simpl; rewrite ?bool_decide_eq_true, ?land_Null_testbit;
    (split; [intros H | intros [H|[H|[H|(u' & H & Hb)]]]]);
    try discriminate; try done; auto.
  - right; right; right. eauto.
  - by injection H as ->.
Qed.

End NullProps.

(** ** The union representation *)

Module UnionProps.
Import IRGraph Kinds NullProps.

Lemma land_Null_lxor (p : Z) :
  Z.land irUnion_Null p ≠ 0 → Z.land irUnion_Null (Z.lxor irUnion_Null p) = 0.
Proof.
  rewrite Z.land_comm, land_Null_testbit. intros Hp.
  apply Z.bits_inj'. intros k Hk.
  rewrite Z.land_spec, Z.lxor_spec, Z.testbit_0_l.
  destruct (decide (k = 1)) as [->|Hne].
  - by rewrite Hp.
  - unfold irUnion_Null. change 2 with (2 ^ 1). by rewrite Z.pow2_bits_false by lia.
Qed.

Lemma land_lxor_Null (c p : Z) :
  Z.land c irUnion_Null = 0 → Z.land c (Z.lxor irUnion_Null p) = Z.land c p.
Proof.
  intros H. apply Z.bits_inj'. intros k Hk.
  assert (Z.testbit (Z.land c irUnion_Null) k = false) as Hc
    by (rewrite H; apply Z.testbit_0_l).
  rewrite !Z.land_spec, Z.lxor_spec in *.
  by destruct (Z.testbit c k), (Z.testbit irUnion_Null k), (Z.testbit p k).
Qed.

Lemma unionToList_unfold n p a c m e :
  unionToList (mkIRUnionRep n p a c m e) =
    (if isInPrimitives p irUnion_Null then [IRNull] else []) ++
    (if isInNumber p irUnion_Integer then [IRInteger] else []) ++
    (if isInNumber p irUnion_Double then [IRDouble] else []) ++
    (if isInPrimitives p irUnion_Bool then [IRBool] else []) ++
    (if isInPrimitives p irUnion_String then [IRString] else []) ++
    slot IRArray a ++ slot IRClass c ++ slot IRMap m.
Proof.
  unfold unionToList, mapUnion, mapUnionM.
  destruct a, c, m, (isInPrimitives p irUnion_Null), (isInNumber p irUnion_Integer),
    (isInNumber p irUnion_Double), (isInPrimitives p irUnion_Bool),
    (isInPrimitives p irUnion_String); reflexivity.
Qed.

(** [forUnion_] calls its callback on the elements of [unionToList], in
    that order. *)
Lemma forUnion__for_ (u : IRUnionRep) :
  forUnion_ u visit = for_ (unionToList u) visit.
Proof.
  destruct u as [n p a c m e]. rewrite unionToList_unfold. unfold forUnion_, when.
  destruct a, c, m, (isInPrimitives p irUnion_Null), (isInNumber p irUnion_Integer),
    (isInNumber p irUnion_Double), (isInPrimitives p irUnion_Bool),
    (isInPrimitives p irUnion_String); reflexivity.
Qed.

Lemma forUnion__visits (u : IRUnionRep) :
  visited (forUnion_ u visit) = unionToList u.
Proof. rewrite forUnion__for_. apply visited_for_. Qed.

(** [mapUnionM] returns the results in the order of [unionToList], and
    calls its callback in the opposite order. *)
Lemma mapUnionM_visits {A} (f : IRType → A) (u : IRUnionRep) :
  let r := mapUnionM (λ t, visit t >> pure (f t)) u in
  result r = map f (unionToList u) ∧ visited r = reverse (unionToList u).
Proof.
  destruct u as [n p a c m e]. rewrite unionToList_unfold. unfold mapUnionM.
  destruct a, c, m, (isInPrimitives p irUnion_Null), (isInNumber p irUnion_Integer),
    (isInNumber p irUnion_Double), (isInPrimitives p irUnion_Bool),
    (isInPrimitives p irUnion_String); split; reflexivity.
Qed.

(** Apart from the enumeration slot, [unionToList] lists the kinds a union
    holds. *)
Lemma unionToList_kinds (u : IRUnionRep) :
  unionToList u ++ slot IREnum (enumData u) = kinds u.
Proof.
  destruct u as [n p a c m e]. rewrite unionToList_unfold. unfold kinds, primitiveKinds.
  rewrite !filter_cons, filter_nil. simpl.
  repeat case_decide;
    repeat match goal with
    | H : ?b = true |- _ => rewrite H
    | H : ?b ≠ true |- _ => apply not_true_is_false in H; rewrite H
    end; simpl; by rewrite <- ?app_assoc.
Qed.

(** The kinds come in the canonical order, each at most once. *)
Lemma kinds_sorted (u : IRUnionRep) :
  StronglySorted (λ a b, (rank a < rank b)%nat) (kinds u).
Proof.
  destruct u as [n p a c m e]. unfold kinds, primitiveKinds.
  rewrite !filter_cons, filter_nil.
  destruct a, c, m, e; simpl; repeat case_decide;
    repeat (constructor; simpl; try lia).
Qed.

Lemma kinds_NoDup (u : IRUnionRep) : NoDup (kinds u).
Proof.
  induction (kinds_sorted u) as [|x l Hs IH Hx]; constructor; [|done].
  intros Hin. rewrite Forall_forall in Hx. specialize (Hx x Hin). lia.
Qed.

Lemma unionToList_no_enum (u : IRUnionRep) (e : IREnumData) : IREnum e ∉ unionToList u.
Proof.
  destruct u as [n p a c m e']. rewrite unionToList_unfold.
  destruct a, c, m, (isInPrimitives p irUnion_Null), (isInNumber p irUnion_Integer),
    (isInNumber p irUnion_Double), (isInPrimitives p irUnion_Bool),
    (isInPrimitives p irUnion_String); simpl; set_solver.
Qed.

(** C1 (the code departs from it): on the union of null and an enumeration
    the enumeration is a member, and the kinds held are null and the
    enumeration, yet [forUnion_], [mapUnionM] and [unionToList] visit null
    only. *)
Theorem forUnion__omits_enum :
  isUnionMember (IREnum colors) nullOrColors = true ∧
  kinds nullOrColors = [IRNull; IREnum colors] ∧
  visited (forUnion_ nullOrColors visit) = [IRNull] ∧
  result (mapUnionM (λ t, visit t >> pure t) nullOrColors) = [IRNull] ∧
  unionToList nullOrColors = [IRNull].
Proof. repeat split; vm_compute; reflexivity. Qed.

Lemma singleton_match {A} (l : list A) (h x : A) :
  match l with [y] => Some y | _ => None end = Some x ↔ h :: l = [h; x].
Proof.
  destruct l as [|y [|z l]]; split; intros H; try discriminate; by simplify_eq.
Qed.

(** [nullableFromUnion] decides by what [unionToList] lists. *)
Lemma nullableFromUnion_iff (u : IRUnionRep) (t : IRType) :
  nullableFromUnion u = Some t ↔ unionToList u = [IRNull; t].
Proof.
  destruct u as [n p a c m e]. unfold nullableFromUnion, removeNullFromUnion.
  case_bool_decide as Hnull; simpl.
  - rewrite unionToList_unfold.
    assert (isInPrimitives p irUnion_Null = false) as ->.
    { unfold isInPrimitives. rewrite bool_decide_eq_false, Hnull. by intros []. }
    split; [done|].
    destruct a, c, m, (isInNumber p irUnion_Integer),
      (isInNumber p irUnion_Double), (isInPrimitives p irUnion_Bool),
      (isInPrimitives p irUnion_String); simpl; intros; discriminate.
  - rewrite !unionToList_unfold. unfold isInPrimitives, isInNumber.
    rewrite (land_Null_lxor p Hnull), !land_lxor_Null by done.
    rewrite (bool_decide_eq_false_2 (0 ≠ 0)) by (by intros []).
    rewrite (bool_decide_eq_true_2 (Z.land irUnion_Null p ≠ 0)) by done.
    simpl. apply singleton_match.
Qed.

(** Where the enumeration slot is empty, a union is nullable exactly when
    it holds null and one other kind, which [nullableFromUnion] returns. *)
Lemma nullableFromUnion_without_enum (u : IRUnionRep) (t : IRType) :
  enumData u = None → (nullableFromUnion u = Some t ↔ kinds u = [IRNull; t]).
Proof.
  intros He. rewrite nullableFromUnion_iff, <- unionToList_kinds, He. simpl.
  by rewrite app_nil_r.
Qed.

(** C2 (the code departs from it): the union of null and an enumeration
    holds null and exactly one other kind, yet [nullableFromUnion] returns
    nothing for it; the union of null, string and an enumeration holds two
    kinds besides null, yet [nullableFromUnion] returns string. *)
Theorem nullableFromUnion_ignores_enum :
  kinds nullOrColors = [IRNull; IREnum colors] ∧
  nullableFromUnion nullOrColors = None ∧
  kinds nullStringOrColors = [IRNull; IRString; IREnum colors] ∧
  nullableFromUnion nullStringOrColors = Some IRString.
Proof. repeat split; vm_compute; reflexivity. Qed.

(** C8: [removeNullFromUnion] reports whether the null bit was set, returns
    a union whose null bit is clear and whose other bits, names and slots
    are those of the argument, and returns the argument itself when its
    null bit was clear. *)
Theorem removeNullFromUnion_frame (u : IRUnionRep) :
  let r := removeNullFromUnion u in
  hasNull r = Z.testbit (primitives u) 1 ∧
  (∀ k, Z.testbit (primitives (nonNullUnion r)) k =
        if decide (k = 1) then false else Z.testbit (primitives u) k) ∧
  names (nonNullUnion r) = names u ∧
  arrayType (nonNullUnion r) = arrayType u ∧
  classRef (nonNullUnion r) = classRef u ∧
  mapType (nonNullUnion r) = mapType u ∧
  enumData (nonNullUnion r) = enumData u ∧
  (if hasNull r then True else nonNullUnion r = u).
Proof.
  destruct u as [n p a c m e]. unfold removeNullFromUnion.
  pose proof (land_Null_testbit p) as Hbit. rewrite Z.land_comm in Hbit.
  case_bool_decide as Hnull; simpl.
  - assert (Z.testbit p 1 = false) as Hp.
    { apply not_true_is_false. rewrite <- Hbit. by intros []. }
    repeat split; try done. intros k. case_decide; by subst.
  - apply Hbit in Hnull as Hp. repeat split; try done.
    intros k. rewrite Z.lxor_spec. case_decide as Hk.
    + subst k. by rewrite Hp.
    + unfold irUnion_Null. change 2 with (2 ^ 1).
      by rewrite Z.pow2_bits_false by lia.
Qed.

(** C3: when the integer and the double bits are all set, the union is a
    member for double and not for integer, iteration and listing emit
    double and not integer, and they emit what they emit for the union
    whose number bits are those of double alone. *)
Theorem integer_and_double_emit_double (u : IRUnionRep)
    (HI : Z.land (primitives u) irUnion_Integer = irUnion_Integer)
    (HD : Z.land (primitives u) irUnion_Double = irUnion_Double) :
  isUnionMember IRInteger u = false ∧ isUnionMember IRDouble u = true ∧
  (IRDouble ∈ visited (forUnion_ u visit)) ∧ (IRInteger ∉ visited (forUnion_ u visit)) ∧
  (IRDouble ∈ unionToList u) ∧ (IRInteger ∉ unionToList u) ∧
  visited (forUnion_ u visit) =
    visited (forUnion_
      (setPrimitives u (Z.lor (Z.ldiff (primitives u) irUnion_Number) irUnion_Double))
      visit).
Proof.
  destruct u as [n p a c m e]. simpl in HI, HD. cbn [isUnionMember].
  assert (isInNumber p irUnion_Integer = false) as HnI.
  { unfold isInNumber, irUnion_Number. rewrite bool_decide_eq_false, Z.land_comm, HD. done. }
  assert (isInNumber p irUnion_Double = true) as HnD.
  { unfold isInNumber, irUnion_Number. by rewrite bool_decide_eq_true, Z.land_comm. }
  assert (IRDouble ∈ unionToList (mkIRUnionRep n p a c m e) ∧
          IRInteger ∉ unionToList (mkIRUnionRep n p a c m e)) as [Hin Hout].
  { rewrite unionToList_unfold, HnI, HnD.
    destruct a, c, m, (isInPrimitives p irUnion_Null), (isInPrimitives p irUnion_Bool),
      (isInPrimitives p irUnion_String); simpl; set_solver. }
  rewrite !forUnion__visits. repeat split; try done.
  unfold setPrimitives, irUnion_Number. simpl.
  rewrite <- HD at 2. by rewrite Z.lor_ldiff_and.
Qed.

Lemma integer_and_double_emit_double_witness :
  let u := mkIRUnionRep (Inferred ∅) (Z.lor irUnion_Integer irUnion_Double) None None None None in
  isUnionMember IRInteger u = false ∧ isUnionMember IRDouble u = true ∧
  unionToList u = [IRDouble].
Proof.
  intros u.
  destruct (integer_and_double_emit_double u eq_refl eq_refl) as (HI & HD & _).
  split; [exact HI | split; [exact HD | reflexivity]].
Defined.

End UnionProps.

(** ** The class arena *)

Module ArenaProps.
Import IRGraph Examples.

Lemma seqIndex_Some {A} (i : Z) (s : list A) (x : A) :
  seqIndex i s = Some x ↔ ∃ n : nat, i = Z.of_nat n ∧ s !! n = Some x.
Proof.
  unfold seqIndex. case_decide as Hi; split.
  - done.
  - intros (n & -> & _). lia.
  - intros H. exists (Z.to_nat i). split; [lia | done].
  - intros (n & -> & H). by rewrite Nat2Z.id.
Qed.

Lemma seqIndex_bounds {A} (i : Z) (s : list A) (x : A) :
  seqIndex i s = Some x → 0 ≤ i < Z.of_nat (length s).
Proof.
  rewrite seqIndex_Some. intros (n & -> & H). apply lookup_lt_Some in H. lia.
Qed.

(** A redirect chain is determined by where it starts. *)
Lemma redirectsTo_det (cs : list Entry) n i j n' j' :
  redirectsTo cs n i j → redirectsTo cs n' i j' → n = n' ∧ j = j'.
Proof.
  intros H. revert n' j'.
  induction H as [i cd Hi | n i k j Hi _ IH]; intros n' j' H'.
  - inversion H'; simplify_eq; done.
  - inversion H' as [? ? Hi' | ? ? k' ? Hi' Hk']; simplify_eq.
    destruct (IH _ _ Hk') as [-> ->]. done.
Qed.

(** [followIndex] walks the chain, one call for each of its entries. *)
Lemma redirectsTo_followIndex (g : IRGraph) n i j :
  redirectsTo (classes g) n i j →
  ∃ cd, seqIndex j (classes g) = Some (Class cd) ∧
        ∀ fuel, (n < fuel)%nat → followIndex fuel g i = Done (j, cd).
Proof.
  induction 1 as [i cd Hi | n i k j Hi _ (cd & Hj & IH)]; exists cd; split; try done.
  - intros [|fuel] Hf; [lia|]. simpl. by rewrite Hi.
  - intros [|fuel] Hf; [lia|]. simpl. rewrite Hi. apply IH. lia.
Qed.

(** The entries of a chain are distinct entries of the arena. *)
Lemma redirectsTo_path (cs : list Entry) n i j :
  redirectsTo cs n i j →
  ∃ path : list nat,
    length path = S n ∧ NoDup path ∧
    ∀ k, k ∈ path →
      (k < length cs)%nat ∧ ∃ m, (m ≤ n)%nat ∧ redirectsTo cs m (Z.of_nat k) j.
Proof.
  induction 1 as [i cd Hi | n i k j Hi Hk (path & Hlen & Hnd & Hpath)].
  - exists [Z.to_nat i]. pose proof (seqIndex_bounds _ _ _ Hi) as Hb.
    split; [done|]. split; [apply NoDup_singleton|].
    intros k ->%list_elem_of_singleton. split; [lia|].
    exists O. split; [done|]. rewrite Z2Nat.id by lia. by econstructor.
  - exists (Z.to_nat i :: path). pose proof (seqIndex_bounds _ _ _ Hi) as Hb.
    assert (redirectsTo cs (S n) i j) as Hi' by (by econstructor).
    split; [simpl; by rewrite Hlen|]. split.
    + constructor; [|done]. intros Hin.
      destruct (Hpath _ Hin) as (_ & m & Hm & Hchain).
      rewrite Z2Nat.id in Hchain by lia.
      destruct (redirectsTo_det _ _ _ _ _ _ Hi' Hchain) as [<- _]. lia.
    + intros k' [->|Hin]%elem_of_cons.
      * split; [lia|]. exists (S n). split; [done|]. by rewrite Z2Nat.id by lia.
      * destruct (Hpath _ Hin) as (Hlt & m & Hm & Hchain).
        split; [done|]. exists m. split; [lia | done].
Qed.

(** A chain has fewer redirects than the arena has entries. *)
Lemma redirectsTo_bound (cs : list Entry) n i j :
  redirectsTo cs n i j → (n < length cs)%nat.
Proof.
  intros (path & Hlen & Hnd & Hpath)%redirectsTo_path.
  assert (path ⊆+ seq 0 (length cs)) as Hsub.
  { apply NoDup_submseteq; [done|]. intros k Hk%Hpath.
    apply elem_of_seq. lia. }
  apply submseteq_length in Hsub. rewrite length_seq in Hsub. lia.
Qed.

Lemma reachable_indexUsed (g : IRGraph) (i : Z) : reachable g i → indexUsed g i.
Proof.
  unfold indexUsed. induction 1 as [name t i Ht Hi | i k _ _ Hi | i cd p t k _ _ Hi Hp Hk].
  - left. eauto.
  - right; right. eauto.
  - right; left. eauto 10.
Qed.

(** C4: in a graph with arena integrity, [followIndex] on the index of an
    entry reachable from the top levels returns after at most as many calls
    as the arena has entries, and what it returns is a live entry of the
    arena with its class data. *)
Theorem followIndex_terminates (g : IRGraph) (i : Z) :
  arenaIntegrity g → reachable g i →
  ∃ j cd,
    seqIndex j (classes g) = Some (Class cd) ∧
    ∀ fuel, (length (classes g) ≤ fuel)%nat → followIndex fuel g i = Done (j, cd).
Proof.
  intros Hg Hi. destruct (Hg i (reachable_indexUsed g i Hi)) as (_ & n & j & Hchain).
  pose proof (redirectsTo_bound _ _ _ _ Hchain) as Hn.
  destruct (redirectsTo_followIndex g n i j Hchain) as (cd & Hj & Hfuel).
  exists j, cd. split; [done|]. intros fuel Hf. apply Hfuel. lia.
Qed.

(** The chain from entry 3 takes three calls. *)
Lemma followIndex_chained :
  followIndex 3 chained 3 = Done (2, node) ∧ followIndex 2 chained 3 = OutOfFuel.
Proof. split; reflexivity. Qed.

(** An empty entry and an index outside the arena crash [followIndex]. *)
Lemma followIndex_crashes :
  followIndex 4 chained 1 = Crash ∧ followIndex 4 chained 4 = Crash ∧
  followIndex 4 chained (-1) = Crash.
Proof. repeat split; reflexivity. Qed.

Lemma chained_integrity : arenaIntegrity chained.
Proof.
  assert (redirectsTo (classes chained) 0 2 2) as H2 by (by econstructor).
  assert (redirectsTo (classes chained) 1 0 2) as H0 by (by econstructor).
  assert (redirectsTo (classes chained) 2 3 2) as H3 by (by econstructor).
  assert (∀ k e, seqIndex k (classes chained) = Some e →
            (k = 0 ∧ e = Redirect 2) ∨ (k = 1 ∧ e = NoType) ∨
            (k = 2 ∧ e = Class node) ∨ (k = 3 ∧ e = Redirect 0)) as Hentries.
  { intros k e (n & -> & Hn)%seqIndex_Some.
    destruct n as [|[|[|[|n]]]]; simplify_eq/=; auto. }
  intros i [(name & t & Ht & Hi) | [(k & cd & p & t & Hk & Hp & Hi) | (k & Hk)]].
  - simpl in Ht. apply lookup_singleton_Some in Ht as [_ <-].
    apply list_elem_of_singleton in Hi as ->. simpl. split; [lia | eauto].
  - apply Hentries in Hk as [[_ ?]|[[_ ?]|[[_ ?]|[_ ?]]]]; simplify_eq.
    simpl in Hp. apply lookup_singleton_Some in Hp as [_ <-].
    apply list_elem_of_singleton in Hi as ->. simpl. split; [lia | eauto].
  - apply Hentries in Hk as [[_ ?]|[[_ ?]|[[_ ?]|[_ ?]]]]; simplify_eq;
      simpl; (split; [lia | eauto]).
Qed.

Lemma chained_reachable : reachable chained 3.
Proof. apply (reachable_toplevel chained "top"%string (IRClass 3)); [done | set_solver]. Qed.

Lemma followIndex_terminates_witness :
  ∃ j cd,
    seqIndex j (classes chained) = Some (Class cd) ∧
    ∀ fuel, (length (classes chained) ≤ fuel)%nat → followIndex fuel chained 3 = Done (j, cd).
Proof. exact (followIndex_terminates chained 3 chained_integrity chained_reachable). Defined.

End ArenaProps.

(** ** Regathering class names *)

Module RegatherProps.
Import IRGraph Regathering ArenaProps.

(** Induction over types, through the slots of a union. *)
Lemma IRType_nested_ind (P : IRType → Prop) :
  P IRNoInformation → P IRAnyType → P IRNull → P IRInteger → P IRDouble →
  P IRBool → P IRString →
  (∀ a, P a → P (IRArray a)) → (∀ i, P (IRClass i)) → (∀ m, P m → P (IRMap m)) →
  (∀ e, P (IREnum e)) →
  (∀ n p a c m e, from_option P True a → from_option P True m →
     P (IRUnion (mkIRUnionRep n p a c m e))) →
  ∀ t, P t.
Proof.
  intros H1 H2 H3 H4 H5 H6 H7 Harray Hclass Hmap Henum Hunion.
  fix IH 1.
  intros [| | | | | | |a|i|m|e|[n p a c m e]];
    [exact H1 | exact H2 | exact H3 | exact H4 | exact H5 | exact H6 | exact H7
    | apply Harray, IH | apply Hclass | apply Hmap, IH | apply Henum | ].
  apply Hunion.
  - destruct a as [a|]; simpl; [apply IH | exact I].
  - destruct m as [m|]; simpl; [apply IH | exact I].
Qed.

Local Arguments combine : simpl never.

Section Gather.
Variable singular : string → string.

Lemma singularN_S k name :
  singularN singular (S k) name = singularN singular k (singular name).
Proof. done. Qed.

Lemma singularN_singular k name :
  singular (singularN singular k name) = singularN singular (S k) name.
Proof. revert name. induction k as [|k IH]; intros name; simpl; [done | apply IH]. Qed.

Lemma combine_cons m l i :
  combine (m :: l) !! i = union_with (λ a b, Some (a ∪ b)) (m !! i) (combine l !! i).
Proof. unfold combine. simpl. apply lookup_union_with. Qed.

Lemma combine_is_Some l i :
  is_Some (combine l !! i) ↔ ∃ m, m ∈ l ∧ is_Some (m !! i).
Proof.
  induction l as [|m l IH].
  - unfold combine. simpl. rewrite lookup_empty. split.
    + by intros [? ?].
    + intros (m & Hm & _). by apply elem_of_nil in Hm.
  - rewrite combine_cons. split.
    + destruct (m !! i) as [s|] eqn:Hm.
      * intros _. exists m. rewrite Hm. split; [left | eauto].
      * destruct (combine l !! i) as [s|] eqn:Hl; simpl; [|by intros [? ?]].
        intros _. destruct IH as [(m' & Hin & Hs) _]; [eauto|].
        exists m'. split; [by right | done].
    + intros (m' & [->|Hin]%elem_of_cons & [s Hs]).
      * rewrite Hs. destruct (combine l !! i); simpl; eauto.
      * destruct IH as [_ [s' Hs']]; [eauto|].
        rewrite Hs'. destruct (m !! i); simpl; eauto.
Qed.

Lemma gathered_combine l i x :
  gathered (combine l) i x ↔ ∃ m, m ∈ l ∧ gathered m i x.
Proof.
  unfold gathered. induction l as [|m l IH].
  - unfold combine. simpl. rewrite lookup_empty. split.
    + by intros (? & ? & _).
    + intros (m & Hm & _). by apply elem_of_nil in Hm.
  - rewrite combine_cons. split.
    + destruct (m !! i) as [s|] eqn:Hm, (combine l !! i) as [s'|] eqn:Hl; simpl;
        intros (s0 & Hs0 & Hx); simplify_eq.
      * apply elem_of_union in Hx as [Hx|Hx].
        -- exists m. split; [left | eauto].
        -- destruct IH as [(m' & Hin & Hg) _]; [eauto|].
           exists m'. split; [by right | done].
      * exists m. split; [left | eauto].
      * destruct IH as [(m' & Hin & Hg) _]; [eauto|].
        exists m'. split; [by right | done].
    + intros (m' & [->|Hin]%elem_of_cons & s & Hs & Hx).
      * rewrite Hs. destruct (combine l !! i); simpl; eexists; split; eauto.
        by apply elem_of_union_l.
      * destruct IH as [_ (s' & Hs' & Hx')]; [eauto|].
        rewrite Hs'. destruct (m !! i); simpl; eexists; split; eauto.
        by apply elem_of_union_r.
Qed.

(** A type that mentions a class yields a name for it, and only then. *)
Lemma gatherFromType_is_Some t : ∀ name i,
  is_Some (gatherFromType singular name t !! i) ↔ i ∈ classRefs t.
Proof.
  induction t as [| | | | | | |a IH|j|m IH| |n p a c m e IHa IHm] using IRType_nested_ind;
    intros name i; simpl; rewrite ?lookup_empty;
    try (split; [by intros [? ?] | by intros ?%elem_of_nil]); try apply IH.
  - rewrite list_elem_of_singleton. split.
    + intros [s Hs]. by apply lookup_singleton_Some in Hs as [-> _].
    + intros ->. rewrite lookup_singleton_eq. eauto.
  - rewrite combine_is_Some, !elem_of_app. split.
    + intros (g & Hg & Hs). rewrite !elem_of_cons, elem_of_nil in Hg.
      destruct Hg as [->|[->|[->|[]]]].
      * left. destruct a as [a|]; [by apply (IHa name) | by destruct Hs].
      * right; right. destruct m as [m|]; [by apply (IHm name) | by destruct Hs].
      * right; left. destruct c as [j|]; [|by destruct Hs].
        destruct Hs as [s Hs]. apply lookup_singleton_Some in Hs as [-> _]. by left.
    + intros [Hi|[Hi|Hi]].
      * destruct a as [a|]; [|by apply elem_of_nil in Hi].
        eexists. split; [left|]. by apply IHa.
      * destruct c as [j|]; [|by apply elem_of_nil in Hi].
        apply list_elem_of_singleton in Hi as ->.
        eexists. split; [right; right; left|]. rewrite lookup_singleton_eq. eauto.
      * destruct m as [m|]; [|by apply elem_of_nil in Hi].
        eexists. split; [right; left|]. by apply IHm.
Qed.

(** Every name a type yields is the property name, made singular some
    number of times. *)
Lemma gatherFromType_singularN t : ∀ name i x,
  gathered (gatherFromType singular name t) i x → ∃ k, x = singularN singular k name.
Proof.
  unfold gathered.
  induction t as [| | | | | | |a IH|j|m IH| |n p a c m e IHa IHm] using IRType_nested_ind;
    intros name i x; simpl; rewrite ?lookup_empty;
    try (by intros (? & ? & _)).
  - intros [k ->]%IH. by exists (S k).
  - intros (s & [-> <-]%lookup_singleton_Some & ->%elem_of_singleton). by exists O.
  - intros [k ->]%IH. by exists (S k).
  - intros (g & Hg & Hx)%gathered_combine. unfold gathered in Hx.
    rewrite !elem_of_cons, elem_of_nil in Hg.
    destruct Hg as [->|[->|[->|[]]]].
    + destruct a as [a|]; [by apply (IHa name i) |].
      rewrite lookup_empty in Hx. by destruct Hx as (? & ? & _).
    + destruct m as [m|]; [by apply (IHm name i) |].
      rewrite lookup_empty in Hx. by destruct Hx as (? & ? & _).
    + destruct c as [j|].
      * destruct Hx as (s & [-> <-]%lookup_singleton_Some & ->%elem_of_singleton).
        by exists O.
      * rewrite lookup_empty in Hx. by destruct Hx as (? & ? & _).
Qed.

(** A class under [k] array or map levels gets the property name made
    singular [k] times. *)
Lemma gatherFromType_wraps k : ∀ t name i,
  wraps k t i → gathered (gatherFromType singular name t) i (singularN singular k name).
Proof.
  unfold gathered. induction k as [|k IH]; intros t name i Hw.
  - destruct t as [| | | | | | |a|j|m|e|[n p a c m e]]; simpl in Hw; try done.
    + subst j. simpl. exists {[name]}. rewrite lookup_singleton_eq.
      split; [done | by apply elem_of_singleton].
    + subst c. simpl. apply gathered_combine. eexists. split; [right; right; left|].
      exists {[name]}. rewrite lookup_singleton_eq.
      split; [done | by apply elem_of_singleton].
  - destruct t as [| | | | | | |a|j|m|e|u]; simpl in Hw; try done; simpl; by apply IH.
Qed.

Lemma elem_of_concat {A} (x : A) (ls : list (list A)) :
  x ∈ concat ls ↔ ∃ l, l ∈ ls ∧ x ∈ l.
Proof.
  induction ls as [|l ls IH]; simpl.
  - split; [by intros ?%elem_of_nil | by intros (? & ?%elem_of_nil & _)].
  - rewrite elem_of_app, IH. split.
    + intros [Hx|(l' & Hl' & Hx)]; [exists l | exists l']; split; auto; by constructor.
    + intros (l' & [->|Hl']%elem_of_cons & Hx); eauto.
Qed.

Lemma elem_of_mapClasses {A} (f : Z → IRClassData → A) (g : IRGraph) (y : A) :
  y ∈ mapClasses f g ↔
  ∃ k cd, seqIndex k (classes g) = Some (Class cd) ∧ y = f k cd.
Proof.
  unfold mapClasses. rewrite elem_of_concat. split.
  - intros (l & (n & e & -> & Hn)%elem_of_lookup_imap & Hy).
    destruct e as [|cd|j]; try by apply elem_of_nil in Hy.
    apply list_elem_of_singleton in Hy as ->.
    exists (Z.of_nat n), cd. split; [|done]. apply seqIndex_Some. eauto.
  - intros (k & cd & (n & -> & Hn)%seqIndex_Some & ->).
    exists [f (Z.of_nat n) cd]. split; [|by apply list_elem_of_singleton].
    apply elem_of_lookup_imap. exists n, (Class cd). done.
Qed.

Lemma elem_of_gatherFromClassData_list (cd : IRClassData) (m : gmap Z (gset string)) :
  m ∈ map (λ '(n, t), gatherFromType singular n t) (map_to_list (properties cd)) ↔
  ∃ p t, properties cd !! p = Some t ∧ m = gatherFromType singular p t.
Proof.
  change (map ?f ?l) with (f <$> l). rewrite list_elem_of_fmap. split.
  - intros ([p t] & -> & Hpt%elem_of_map_to_list). eauto.
  - intros (p & t & Hpt & ->). exists (p, t). split; [done|].
    by apply elem_of_map_to_list.
Qed.

(** The names gathered for a class are those its mentions yield. *)
Lemma gathered_newNames (g : IRGraph) (i : Z) (x : string) :
  gathered (newNames singular g) i x ↔
  ∃ p t, mentions g i p t ∧ gathered (gatherFromType singular p t) i x.
Proof.
  unfold newNames, mentions. rewrite gathered_combine. split.
  - intros (m & (k & cd & Hk & ->)%elem_of_mapClasses & Hg).
    unfold gatherFromClassData in Hg. apply gathered_combine in Hg as (m & Hm & Hg).
    apply elem_of_gatherFromClassData_list in Hm as (p & t & Hp & ->).
    exists p, t. split; [|done]. exists k, cd. repeat split; try done.
    apply (gatherFromType_is_Some t p). destruct Hg as (s & -> & _). eauto.
  - intros (p & t & (k & cd & Hk & Hp & _) & Hg).
    exists (gatherFromClassData singular k cd). split.
    + apply elem_of_mapClasses. eauto.
    + unfold gatherFromClassData. apply gathered_combine.
      exists (gatherFromType singular p t). split; [|done].
      apply elem_of_gatherFromClassData_list. eauto.
Qed.

Lemma newNames_is_Some (g : IRGraph) (i : Z) :
  is_Some (newNames singular g !! i) ↔ ∃ p t, mentions g i p t.
Proof.
  unfold newNames, mentions. rewrite combine_is_Some. split.
  - intros (m & (k & cd & Hk & ->)%elem_of_mapClasses & Hs).
    unfold gatherFromClassData in Hs. apply combine_is_Some in Hs as (m & Hm & Hs).
    apply elem_of_gatherFromClassData_list in Hm as (p & t & Hp & ->).
    exists p, t, k, cd. repeat split; try done. by apply (gatherFromType_is_Some t p).
  - intros (p & t & k & cd & Hk & Hp & Hi).
    exists (gatherFromClassData singular k cd). split.
    + apply elem_of_mapClasses. eauto.
    + unfold gatherFromClassData. apply combine_is_Some.
      exists (gatherFromType singular p t). split.
      * apply elem_of_gatherFromClassData_list. eauto.
      * by apply gatherFromType_is_Some.
Qed.

Lemma seqIndex_mapClassesInSeq f (cs : list Entry) (i : Z) :
  seqIndex i (mapClassesInSeq f cs) =
    (λ e, match e with Class cd => Class (f i cd) | x => x end) <$> seqIndex i cs.
Proof.
  unfold seqIndex, mapClassesInSeq. case_decide as Hi; [done|].
  rewrite list_lookup_imap. rewrite Z2Nat.id by lia. done.
Qed.

(** Regathering touches nothing but the names of the live classes. *)
Lemma regatherClassNames_frame (g : IRGraph) :
  toplevels (regatherClassNames singular g) = toplevels g ∧
  length (classes (regatherClassNames singular g)) = length (classes g) ∧
  ∀ i, seqIndex i (classes (regatherClassNames singular g)) =
       match seqIndex i (classes g) with
       | Some (Class cd) => Some (Class (classMapper singular g i cd))
       | e => e
       end.
Proof.
  split; [done|]. split.
  - simpl. unfold mapClassesInSeq. apply length_imap.
  - intros i. simpl. rewrite seqIndex_mapClassesInSeq.
    by destruct (seqIndex i (classes g)) as [[|cd|j]|].
Qed.

(** C5, as the code has it: regathering keeps the properties of every live
    class and every given name set.  An inferred name set is kept when no
    property of a live class mentions the class; otherwise it is replaced:
    the new set holds the name of every property that refers to the class,
    made singular once for each array or map level above the reference, and
    holds nothing but names of properties that mention the class, made
    singular some number of times. *)
Theorem regatherClassNames_replaces (g : IRGraph) (i : Z) (cd : IRClassData) :
  seqIndex i (classes g) = Some (Class cd) →
  ∃ cd', seqIndex i (classes (regatherClassNames singular g)) = Some (Class cd') ∧
    properties cd' = properties cd ∧
    match classNames cd with
    | Given _ => classNames cd' = classNames cd
    | Inferred old =>
        ∃ new, classNames cd' = Inferred new ∧
          ((∀ p t, ¬ mentions g i p t) → new = old) ∧
          (∀ p t, mentions g i p t →
             (∀ k, wraps k t i → singularN singular k p ∈ new) ∧
             (∀ x, x ∈ new →
                ∃ p' t' k, mentions g i p' t' ∧ x = singularN singular k p'))
    end.
Proof.
  intros Hi. destruct (regatherClassNames_frame g) as (_ & _ & Hentries).
  exists (classMapper singular g i cd). rewrite Hentries, Hi.
  split; [done|]. split; [done|]. unfold classMapper. simpl.
  destruct (classNames cd) as [s|old]; simpl; [done|].
  eexists. split; [done|]. split.
  - intros Hnone. destruct (newNames singular g !! i) as [s|] eqn:Hs; [|done].
    destruct (newNames_is_Some g i) as [(p & t & Hm) _]; [eauto|].
    by destruct (Hnone p t).
  - intros p t Hm. destruct (newNames_is_Some g i) as [_ [s Hs]]; [eauto|].
    rewrite Hs. simpl. split.
    + intros k Hw.
      destruct (gathered_newNames g i (singularN singular k p)) as [_ (s' & Hs' & Hx)].
      * exists p, t. split; [done|]. by apply gatherFromType_wraps.
      * by simplify_eq.
    + intros x Hx.
      destruct (gathered_newNames g i x) as [(p' & t' & Hm' & Hg) _].
      * exists s. done.
      * apply gatherFromType_singularN in Hg as [k ->]. eauto.
Qed.

End Gather.

Lemma regatherClassNames_replaces_witness :
  ∃ cd', seqIndex 1 (classes (regatherClassNames singular family)) = Some (Class cd') ∧
    properties cd' = properties child ∧
    ∃ new, classNames cd' = Inferred new ∧
      ((∀ p t, ¬ mentions family 1 p t) → new = {["other"%string]}) ∧
      (∀ p t, mentions family 1 p t →
         (∀ k, wraps k t 1 → singularN singular k p ∈ new) ∧
         (∀ x, x ∈ new →
            ∃ p' t' k, mentions family 1 p' t' ∧ x = singularN singular k p')).
Proof. exact (regatherClassNames_replaces singular family 1 child eq_refl). Defined.

(** The two graphs after regathering. *)
Lemma regatherClassNames_family :
  classes (regatherClassNames singular family)
  = [Class parent; Class (mkIRClassData (Inferred {["item"%string]}) ∅)].
Proof. vm_compute. reflexivity. Qed.

Lemma regatherClassNames_household :
  classes (regatherClassNames singular household)
  = [Class keeper; Class (mkIRClassData (Inferred {["owner"%string]}) ∅)].
Proof. vm_compute. reflexivity. Qed.

(** C5 as stated fails: the class at 1 was named [other]; regathering
    names it after the property that refers to it and drops [other]. *)
Lemma regatherClassNames_drops_names : ¬ addsNames singular household.
Proof.
  intros H. destruct (H 1 child eq_refl) as (cd' & Hcd' & _ & new & Hnew & Hsub & _).
  rewrite regatherClassNames_household in Hcd'.
  change (Some (Class (mkIRClassData (Inferred {["owner"%string]}) ∅)) = Some (Class cd'))
    in Hcd'.
  assert (cd' = mkIRClassData (Inferred {["owner"%string]}) ∅) as -> by congruence.
  assert (new = {["owner"%string]}) as -> by (simpl in Hnew; congruence).
  assert ("other"%string ∈ ({["owner"%string]} : gset string)) as Hin
    by (apply Hsub; by apply elem_of_singleton).
  by apply elem_of_singleton in Hin.
Qed.

(** Inside a union, [regatherUnionNames] names the element type of the
    array slot after the singular of the property name. *)
Lemma updateType_union_array (name : string) (inner : IRUnionRep) :
  updateType singular (Inferred name)
    (IRUnion (mkIRUnionRep (Inferred ∅) irUnion_Null (Some (IRUnion inner)) None None None))
  = IRUnion (mkIRUnionRep (Inferred {[name]}) irUnion_Null
      (Some (updateType singular (Inferred (singular name)) (IRUnion inner)))
      None None None) ∧
  ∃ u, updateType singular (Inferred (singular name)) (IRUnion inner) = IRUnion u ∧
       names u = updateInferred (λ _, {[singular name]}) (names inner).
Proof. destruct inner. split; [done|]. eexists. split; done. Qed.

(** Inside a union, [regatherClassNames] reaches the element type of the
    array slot with the property name as it is, not with its singular. *)
Lemma gatherFromType_union_array (name : string) (i : Z) :
  gatherFromType singular name
    (IRUnion (mkIRUnionRep (Inferred ∅) irUnion_Null (Some (IRClass i)) None None None)) !! i
  = Some {[name]} ∧
  gatherFromType singular name (IRArray (IRClass i)) !! i = Some {[singular name]}.
Proof.
  split; simpl.
  - unfold combine. simpl. rewrite !lookup_union_with, lookup_empty, lookup_singleton_eq. done.
  - apply lookup_singleton_eq.
Qed.

End RegatherProps.

(** ** The renderers *)

Module RendererProps.
Import Renderer Rendering.

Local Open Scope string_scope.

(** C7, as the code has it: on an enumeration [sourceFor] and
    [typeMapTypeFor] throw, as does reading [caseNamer]; the renderer is
    left as it was, so nothing is emitted and no issue is recorded; none of
    the three returns. *)
Theorem enum_throws (inlineUnions : bool) (fuel : nat) (id : TypeId) (c : string)
    (cases : list string) (s : RendererState) :
  let e := OfNamedType (EnumType id c cases) in
  sourceFor inlineUnions (S fuel) e s = Threw "FIXME: support enums" s ∧
  typeMapTypeFor e s = Threw "FIXME: support enums" s ∧
  caseNamer s = Threw "FIXME: support enums" s.
Proof. repeat split. Qed.

(** An enumeration inside an array or a map is met before anything is
    built, with the same outcome. *)
Lemma enum_items_throw (inlineUnions : bool) (fuel : nat) (e : NamedType) (s : RendererState) :
  (∃ id c cases, e = EnumType id c cases) →
  sourceFor inlineUnions (S (S fuel)) (ArrayType (OfNamedType e)) s
    = Threw "FIXME: support enums" s ∧
  sourceFor inlineUnions (S (S fuel)) (MapType (OfNamedType e)) s
    = Threw "FIXME: support enums" s ∧
  typeMapTypeFor (ArrayType (OfNamedType e)) s = Threw "FIXME: support enums" s ∧
  typeMapTypeFor (MapType (OfNamedType e)) s = Threw "FIXME: support enums" s.
Proof. intros (id & c & cases & ->). repeat split. Qed.

(** C7 as stated fails: rendering the enumeration records no issue. *)
Lemma enum_records_no_issue :
  ¬ recordsIssue (sourceFor true 1 (OfNamedType suit)) fresh ∧
  ¬ recordsIssue (typeMapTypeFor (OfNamedType suit)) fresh ∧
  ¬ recordsIssue caseNamer fresh.
Proof.
  repeat split; intros (s' & Hs' & Hne); simpl in Hs'; injection Hs' as <-; by apply Hne.
Qed.

(** [nameForNamedType] reads the map of named types and leaves the
    renderer as it was. *)
Lemma nameForNamedType_spec (t : NamedType) (s : RendererState) :
  nameForNamedType t s =
    match namesForNamedTypes s !! typeId t with
    | Some n => Returned n s
    | None => Threw "Named type does not exist." s
    end.
Proof.
  unfold nameForNamedType. simpl.
  by destruct (namesForNamedTypes s !! typeId t) as [n|].
Qed.

Lemma setUp_same (s s' : RendererState) (ids : list TypeId) :
  namesForNamedTypes s' = namesForNamedTypes s →
  globalNamespace s' = globalNamespace s →
  setUp s ids → setUp s' ids.
Proof. unfold setUp, namesRegistered. by intros -> ->. Qed.

Lemma setUp_insert (s : RendererState) (ids : list TypeId) (t : NamedType) (n : Name)
    tl pn an :
  setUp s ids →
  setUp (mkRendererState (globalNamespace s ++ [n]) tl
           (<[typeId t := n]> (namesForNamedTypes s)) pn an)
        (ids ++ [typeId t]).
Proof.
  intros [Hdom Hreg]. split; simpl.
  - intros id. rewrite elem_of_app, list_elem_of_singleton, <- Hdom.
    destruct (decide (typeId t = id)) as [<-|Hne].
    + rewrite lookup_insert_eq. split; eauto.
    + rewrite lookup_insert_ne by done. split; [auto | by intros [?|?]].
  - intros id n'. unfold namesRegistered in Hreg. simpl. rewrite elem_of_app.
    destruct (decide (typeId t = id)) as [<-|Hne].
    + rewrite lookup_insert_eq. intros [= <-]. right. by apply list_elem_of_singleton.
    + rewrite lookup_insert_ne by done. eauto.
Qed.

Lemma addNamedForNamedType_setUp (t : NamedType) (s : RendererState) (ids : list TypeId) :
  setUp s ids →
  ∃ n s', addNamedForNamedType t s = Returned n s' ∧ setUp s' (ids ++ [typeId t]) ∧
          annotations s' = annotations s.
Proof.
  intros Hs. unfold addNamedForNamedType. simpl.
  destruct (namesForNamedTypes s !! typeId t) as [existing|] eqn:Ht; simpl.
  - exists existing, s. split; [done|]. split; [|done].
    destruct Hs as [Hdom Hreg]. split; [|done].
    intros id. rewrite elem_of_app, list_elem_of_singleton, <- Hdom.
    split; [auto | intros [?| ->]; eauto].
  - eexists _, _. split; [done|]. split; [|done]. by apply setUp_insert.
Qed.

Lemma addPropertyNameds_setUp (c : NamedType) (n : Name) (s : RendererState)
    (ids : list TypeId) :
  setUp s ids →
  ∃ s', addPropertyNameds c n s = Returned tt s' ∧ setUp s' ids ∧
        annotations s' = annotations s.
Proof.
  intros Hs. destruct c as [id cn props|id cn cases|id cn children]; simpl; eauto.
Qed.

Lemma for__setUp (f : NamedType → Render unit) :
  (∀ t s ids, setUp s ids →
     ∃ s', f t s = Returned tt s' ∧ setUp s' (ids ++ [typeId t]) ∧
           annotations s' = annotations s) →
  ∀ l s ids, setUp s ids →
    ∃ s', for_ l f s = Returned tt s' ∧ setUp s' (ids ++ (typeId <$> l)) ∧
          annotations s' = annotations s.
Proof.
  intros Hf l. induction l as [|t l IH]; intros s ids Hs; simpl.
  - exists s. by rewrite app_nil_r.
  - destruct (Hf t s ids Hs) as (s1 & -> & Hs1 & Ha1).
    destruct (IH s1 _ Hs1) as (s2 & -> & Hs2 & Ha2).
    exists s2. rewrite <- app_assoc in Hs2. split; [done|]. split; [done | congruence].
Qed.

Section TopLevels.
Variable typeNameStyle : string → string.

Lemma nameForTopLevel_setUp (type : Type_) (name : string) (s : RendererState)
    (ids : list TypeId) :
  setUp s ids →
  ∃ n s', nameForTopLevel typeNameStyle type name s = Returned n s' ∧
          setUp s' (ids ++ (typeId <$> namedTopLevels [(name, type)])) ∧
          annotations s' = annotations s.
Proof.
  intros Hs. unfold nameForTopLevel, namedTopLevels. simpl.
  destruct (namedTypeToNameForTopLevel type) as [t|]; simpl.
  - eexists _, _. split; [done|]. split; [|done].
    by apply (setUp_insert s ids t).
  - eexists _, _. split; [done|]. split; [|done].
    rewrite app_nil_r. destruct Hs as [Hdom Hreg]. split; [done|].
    intros id n Hn. simpl in *. apply elem_of_app. left. by apply (Hreg id).
Qed.

Lemma topLevels_setUp (topLevels : list (string * Type_)) : ∀ s ids,
  setUp s ids →
  ∃ named s',
    traverse (λ '(name, type),
                nameForTopLevel typeNameStyle type name >>= λ n, pure (name, n))
      topLevels s = Returned named s' ∧
    setUp s' (ids ++ (typeId <$> namedTopLevels topLevels)) ∧
    annotations s' = annotations s.
Proof.
  induction topLevels as [|[name type] l IH]; intros s ids Hs.
  - exists [], s. simpl. by rewrite app_nil_r.
  - destruct (nameForTopLevel_setUp type name s ids Hs) as (n & s1 & Hn & Hs1 & Ha1).
    destruct (IH s1 _ Hs1) as (named & s2 & Hl & Hs2 & Ha2).
    exists ((name, n) :: named), s2. split.
    + simpl in Hl |- *. by rewrite Hn, Hl.
    + split; [|congruence]. rewrite <- app_assoc, <- fmap_app in Hs2.
      unfold namedTopLevels in *. simpl in *.
      by destruct (namedTypeToNameForTopLevel type).
Qed.

(** C9: [nameForNamedType] always leaves the renderer as it is.  Name
    setup returns, and afterwards [nameForNamedType] returns the name of a
    named type that was assigned one during setup, a name already
    registered with the global namespace, and throws for a named type that
    was assigned none. *)
Theorem nameForNamedType_lookup (topLevels : list (string * Type_))
    (classes enums unions : list NamedType) (s0 : RendererState) :
  (∀ t s, finalState (nameForNamedType t s) = Some s) ∧
  ∃ s1, setUpNaming typeNameStyle topLevels classes enums unions s0 = Returned tt s1 ∧
    ∀ t,
      match namesForNamedTypes s1 !! typeId t with
      | Some n =>
          (typeId t ∈ assigned topLevels classes enums unions) ∧
          (n ∈ globalNamespace s1) ∧
          nameForNamedType t s1 = Returned n s1
      | None =>
          (typeId t ∉ assigned topLevels classes enums unions) ∧
          nameForNamedType t s1 = Threw "Named type does not exist." s1
      end.
Proof.
  split.
  { intros t s. rewrite nameForNamedType_spec.
    by destruct (namesForNamedTypes s !! typeId t). }
  assert (setUp (mkRendererState [] ∅ ∅ ∅ (annotations s0)) []) as Hs.
  { split.
    - intros id. simpl. rewrite lookup_empty. split; [by intros [? ?] | by intros ?%elem_of_nil].
    - intros id n. simpl. by rewrite lookup_empty. }
  destruct (topLevels_setUp topLevels _ _ Hs) as (named & s1 & Htop & Hs1 & _).
  set (s2 := mkRendererState (globalNamespace s1) (list_to_map named)
               (namesForNamedTypes s1) (propertyNames s1) (annotations s1)).
  assert (setUp s2 ([] ++ (typeId <$> namedTopLevels topLevels))) as Hs2
    by (by apply (setUp_same s1)).
  destruct (for__setUp
              (λ c, addNamedForNamedType c >>= λ named, addPropertyNameds c named)
              ltac:(intros t s ids H;
                    destruct (addNamedForNamedType_setUp t s ids H) as (n & s' & Hn & Hs' & Ha);
                    destruct (addPropertyNameds_setUp t n s' _ Hs') as (s'' & Hp & Hs'' & Ha');
                    exists s''; simpl; rewrite Hn, Hp; split; [done|]; split; [done | congruence])
              classes s2 _ Hs2) as (s3 & Hclasses & Hs3 & _).
  assert (∀ t s ids, setUp s ids →
            ∃ s', (addNamedForNamedType t >> pure tt) s = Returned tt s' ∧
                  setUp s' (ids ++ [typeId t]) ∧ annotations s' = annotations s) as Hadd.
  { intros t s ids H.
    destruct (addNamedForNamedType_setUp t s ids H) as (n & s' & Hn & Hs' & Ha).
    exists s'. simpl. by rewrite Hn. }
  destruct (for__setUp _ Hadd (filter (λ u, unionNeedsName u = true) unions) s3 _ Hs3)
    as (s4 & Hunions & Hs4 & _).
  destruct (for__setUp _ Hadd enums s4 _ Hs4) as (s5 & Henums & Hs5 & _).
  exists s5. split.
  - unfold setUpNaming. simpl in *. rewrite Htop. fold s2.
    rewrite Hclasses, Hunions, Henums. done.
  - intros t. rewrite nameForNamedType_spec.
    destruct Hs5 as [Hdom Hreg]. specialize (Hdom (typeId t)).
    assert (typeId t ∈ assigned topLevels classes enums unions ↔
            is_Some (namesForNamedTypes s5 !! typeId t)) as Hassigned.
    { rewrite Hdom. unfold assigned. by rewrite !fmap_app, <- !app_assoc. }
    destruct (namesForNamedTypes s5 !! typeId t) as [n|] eqn:Ht; simpl.
    + split; [apply Hassigned; eauto|]. split; [by apply (Hreg (typeId t)) | done].
    + split; [|done]. rewrite Hassigned. by intros [? ?].
Qed.

End TopLevels.

(** On a renderer that has set up no names every lookup throws. *)
Lemma nameForNamedType_fresh (t : NamedType) :
  nameForNamedType t fresh = Threw "Named type does not exist." fresh.
Proof. by rewrite nameForNamedType_spec. Qed.

End RendererProps.

(** * Further properties of the code *)

(** ** Unions *)

Module UnionFacts.
Import IRGraph Kinds NullProps UnionProps.

Lemma elem_of_when (b : bool) (x t : IRType) :
  t ∈ (if b then [x] else []) ↔ b = true ∧ t = x.
Proof.
  destruct b.
  - rewrite list_elem_of_singleton. naive_solver.
  - split; [by intros ?%elem_of_nil | by intros [? _]].
Qed.

Lemma elem_of_slot {A} (convert : A → IRType) (x : option A) (t : IRType) :
  t ∈ slot convert x ↔ ∃ a, x = Some a ∧ t = convert a.
Proof.
  destruct x as [a|]; simpl.
  - rewrite list_elem_of_singleton. naive_solver.
  - split; [by intros ?%elem_of_nil | by intros (? & ? & _)].
Qed.

Lemma elem_of_unionToList (u : IRUnionRep) (t : IRType) :
  t ∈ unionToList u ↔ isUnionMember t u = true ∧ ∀ e, t ≠ IREnum e.
Proof.
  destruct u as [n p a c m e]. rewrite unionToList_unfold.
  rewrite !elem_of_app, !elem_of_when, !elem_of_slot. split.
  - intros [[H ->]|[[H ->]|[[H ->]|[[H ->]|[[H ->]|[(x & -> & ->)|[(x & -> & ->)|(x & -> & ->)]]]]]]];
      (split; [simpl; rewrite ?bool_decide_eq_true; done | done]).
  - intros [Hm Hne].
    destruct t as [| | | | | | |x|x|x|x|x]; simpl in Hm; try discriminate; auto 10.
    + destruct a as [y|]; simpl in Hm; [|done].
      apply bool_decide_eq_true in Hm as ->. do 5 right. left. eauto.
    + destruct c as [y|]; simpl in Hm; [|done].
      apply bool_decide_eq_true in Hm as ->. do 6 right. left. eauto.
    + destruct m as [y|]; simpl in Hm; [|done].
      apply bool_decide_eq_true in Hm as ->. do 7 right. eauto.
    + by destruct (Hne x).
Qed.

(** What [unionToList] lists are the members of the union that are not
    enumerations. *)
Theorem unionToList_members (u : IRUnionRep) (t : IRType) :
  t ∈ unionToList u ↔ isUnionMember t u = true ∧ ∀ e, t ≠ IREnum e.
Proof. apply elem_of_unionToList. Qed.

(** A union is never a member for both integer and double, and never
    lists both. *)
Theorem integer_double_exclusive (u : IRUnionRep) :
  (isUnionMember IRInteger u && isUnionMember IRDouble u = false) ∧
  ¬ (IRInteger ∈ unionToList u ∧ IRDouble ∈ unionToList u).
Proof.
  assert (isUnionMember IRInteger u && isUnionMember IRDouble u = false) as H.
  { destruct u as [n p a c m e]. simpl. unfold isInNumber.
    repeat case_bool_decide; simpl; try done.
    unfold irUnion_Double, irUnion_Integer in *. lia. }
  split; [done|]. intros [[HI _]%elem_of_unionToList [HD _]%elem_of_unionToList].
  by rewrite HI, HD in H.
Qed.

Lemma mapUnion_map {A} (f : IRType → A) (u : IRUnionRep) :
  mapUnion f u = map f (unionToList u).
Proof.
  destruct u as [n p a c m e]. rewrite unionToList_unfold. unfold mapUnion, mapUnionM.
  destruct a, c, m, (isInPrimitives p irUnion_Null), (isInNumber p irUnion_Integer),
    (isInNumber p irUnion_Double), (isInPrimitives p irUnion_Bool),
    (isInPrimitives p irUnion_String); reflexivity.
Qed.

(** [mapUnion] maps over what [unionToList] lists, which are at most
    seven types. *)
Theorem mapUnion_unionToList {A} (f : IRType → A) (u : IRUnionRep) :
  mapUnion f u = map f (unionToList u) ∧ (length (mapUnion f u) ≤ 7)%nat.
Proof.
  pose proof (mapUnion_map f u) as Hmap.
  split; [done|]. rewrite Hmap, length_map.
  destruct u as [n p a c m e]. rewrite unionToList_unfold.
  destruct (isInNumber p irUnion_Integer) eqn:HI, (isInNumber p irUnion_Double) eqn:HD.
  - unfold isInNumber in *. apply bool_decide_eq_true in HI, HD.
    unfold irUnion_Double, irUnion_Integer in *. lia.
  - destruct a, c, m, (isInPrimitives p irUnion_Null), (isInPrimitives p irUnion_Bool),
      (isInPrimitives p irUnion_String); simpl; lia.
  - destruct a, c, m, (isInPrimitives p irUnion_Null), (isInPrimitives p irUnion_Bool),
      (isInPrimitives p irUnion_String); simpl; lia.
  - destruct a, c, m, (isInPrimitives p irUnion_Null), (isInPrimitives p irUnion_Bool),
      (isInPrimitives p irUnion_String); simpl; lia.
Qed.

Lemma unionToList_NoDup (u : IRUnionRep) : NoDup (unionToList u).
Proof.
  pose proof (kinds_NoDup u) as H. rewrite <- unionToList_kinds in H.
  by apply NoDup_app in H as [H _].
Qed.

Lemma no_null_bit (n : Named (gset string)) p a c m e :
  Z.land irUnion_Null p = 0 →
  let u := mkIRUnionRep n p a c m e in
  removeNullFromUnion u = mkRemovedNull false u ∧
  canBeNull (IRUnion u) = false ∧
  nullableFromUnion u = None ∧
  isUnionMember IRNull u = false.
Proof.
  intros Hp u. subst u. unfold nullableFromUnion, removeNullFromUnion. simpl.
  rewrite (bool_decide_eq_true_2 _ Hp). simpl. repeat split.
  - apply bool_decide_eq_false. rewrite Z.land_comm, Hp. by intros [].
  - unfold isInPrimitives. apply bool_decide_eq_false. rewrite Hp. by intros [].
Qed.

(** Removing null twice is removing it once; what is left cannot be null,
    is not nullable, and has the members the union had, null apart. *)
Theorem removeNullFromUnion_idempotent (u : IRUnionRep) :
  let v := nonNullUnion (removeNullFromUnion u) in
  removeNullFromUnion v = mkRemovedNull false v ∧
  canBeNull (IRUnion v) = false ∧
  nullableFromUnion v = None ∧
  isUnionMember IRNull v = false ∧
  ∀ t, t ≠ IRNull → isUnionMember t v = isUnionMember t u.
Proof.
  destruct u as [n p a c m e]. cbv zeta.
  assert (∃ p', nonNullUnion (removeNullFromUnion (mkIRUnionRep n p a c m e))
                = mkIRUnionRep n p' a c m e ∧
                Z.land irUnion_Null p' = 0 ∧
                ∀ k, Z.land k irUnion_Null = 0 → Z.land k p' = Z.land k p)
    as (p' & -> & Hp' & Hother).
  { unfold removeNullFromUnion. case_bool_decide as Hnull; simpl.
    - by exists p.
    - exists (Z.lxor irUnion_Null p). split; [done|].
      split; [by apply land_Null_lxor | intros k Hk; by apply land_lxor_Null]. }
  destruct (no_null_bit n p' a c m e Hp') as (H1 & H2 & H3 & H4).
  repeat split; try done.
  intros t Ht. destruct t; try done; simpl; unfold isInPrimitives, isInNumber;
    by rewrite Hother.
Qed.

(** What [nullableFromUnion] returns is a member of the union other than
    null and not an enumeration; the union has null, and no further member
    that is not an enumeration. *)
Theorem nullableFromUnion_member (u : IRUnionRep) (t : IRType) :
  nullableFromUnion u = Some t →
  t ≠ IRNull ∧ (∀ e, t ≠ IREnum e) ∧
  isUnionMember t u = true ∧ isUnionMember IRNull u = true ∧
  canBeNull (IRUnion u) = true ∧
  ∀ t', isUnionMember t' u = true → t' = IRNull ∨ t' = t ∨ ∃ e, t' = IREnum e.
Proof.
  intros Hl%nullableFromUnion_iff.
  pose proof (unionToList_NoDup u) as Hnd. rewrite Hl in Hnd.
  assert (IRNull ∈ unionToList u) as [HN _]%elem_of_unionToList
    by (rewrite Hl; set_solver).
  assert (t ∈ unionToList u) as [Ht Hte]%elem_of_unionToList
    by (rewrite Hl; set_solver).
  split. { intros ->. apply NoDup_cons in Hnd as [Hin _]. set_solver. }
  repeat split; try done.
  - destruct u as [n p a c m e]. simpl in HN |- *. unfold isInPrimitives in HN.
    by rewrite Z.land_comm.
  - intros t' Ht'. destruct t' as [| | | | | | |x|x|x|x|x]; eauto;
      (assert (Hin : ?[t0] ∈ unionToList u) by (apply elem_of_unionToList; split; [exact Ht' | done]);
       rewrite Hl in Hin; set_solver).
Qed.

Lemma nullableFromUnion_member_witness :
  let u := mkIRUnionRep (Inferred ∅) (Z.lor irUnion_Null irUnion_String) None None None None in
  IRString ≠ IRNull ∧ (∀ e, IRString ≠ IREnum e) ∧
  isUnionMember IRString u = true ∧ isUnionMember IRNull u = true ∧
  canBeNull (IRUnion u) = true ∧
  ∀ t', isUnionMember t' u = true → t' = IRNull ∨ t' = IRString ∨ ∃ e, t' = IREnum e.
Proof. intros u. exact (nullableFromUnion_member u IRString eq_refl). Defined.

(** [unionHasArray], [unionHasClass] and [unionHasMap] return the member
    of the union that is an array, a class or a map. *)
Theorem unionHas_member (u : IRUnionRep) (t : IRType) :
  (unionHasArray u = Some t ↔ isArray t = true ∧ isUnionMember t u = true) ∧
  (unionHasClass u = Some t ↔ isClass t = true ∧ isUnionMember t u = true) ∧
  (unionHasMap u = Some t ↔ isMap t = true ∧ isUnionMember t u = true).
Proof.
  destruct u as [n p a c m e]. unfold unionHasArray, unionHasClass, unionHasMap. simpl.
  repeat split.
  - by destruct a; simplify_eq/=.
  - destruct a; simplify_eq/=. by apply bool_decide_eq_true.
  - intros [Ht Hm]. destruct t; try done. destruct a; simpl in *; [|done].
    by apply bool_decide_eq_true in Hm as ->.
  - by destruct c; simplify_eq/=.
  - destruct c; simplify_eq/=. by apply bool_decide_eq_true.
  - intros [Ht Hm]. destruct t; try done. destruct c; simpl in *; [|done].
    by apply bool_decide_eq_true in Hm as ->.
  - by destruct m; simplify_eq/=.
  - destruct m; simplify_eq/=. by apply bool_decide_eq_true.
  - intros [Ht Hm]. destruct t; try done. destruct m; simpl in *; [|done].
    by apply bool_decide_eq_true in Hm as ->.
Qed.

End UnionFacts.

(** ** Names *)

Module NamedFacts.
Import IRGraph.

(** [unifyNamed] of an associative function is associative. *)
Theorem unifyNamed_assoc {A} (f : A → A → A) (a b c : Named A) :
  (∀ x y z, f x (f y z) = f (f x y) z) →
  unifyNamed f a (unifyNamed f b c) = unifyNamed f (unifyNamed f a b) c.
Proof. intros Hf. destruct a, b, c; simpl; by rewrite ?Hf. Qed.

Lemma unifyNamed_assoc_witness :
  let a : Named (gset string) := Inferred {["a"%string]} in
  let b : Named (gset string) := Given {["b"%string]} in
  let c : Named (gset string) := Given {["c"%string]} in
  unifyNamed (∪) a (unifyNamed (∪) b c) = unifyNamed (∪) (unifyNamed (∪) a b) c.
Proof.
  intros a b c.
  exact (unifyNamed_assoc (∪) a b c (λ x y z : gset string, assoc_L (∪) x y z)).
Defined.

(** [unifyNamed] of a commutative function is commutative, and of an
    idempotent function idempotent. *)
Theorem unifyNamed_comm {A} (f : A → A → A) (a b : Named A) :
  (∀ x y, f x y = f y x) →
  unifyNamed f a b = unifyNamed f b a ∧
  ((∀ x, f x x = x) → unifyNamed f a a = a).
Proof.
  intros Hf. split.
  - destruct a, b; simpl; by rewrite ?(Hf x).
  - intros Hi. destruct a; simpl; by rewrite Hi.
Qed.

Lemma unifyNamed_comm_witness :
  let a : Named (gset string) := Inferred {["a"%string]} in
  let b : Named (gset string) := Given {["b"%string]} in
  unifyNamed (∪) a b = unifyNamed (∪) b a ∧
  ((∀ x : gset string, x ∪ x = x) → unifyNamed (∪) a a = a).
Proof.
  intros a b.
  exact (unifyNamed_comm (∪) a b (λ x y : gset string, comm_L (∪) x y)).
Defined.

End NamedFacts.

(** ** Following indices *)

Module ArenaFacts.
Import IRGraph Examples Chains ArenaProps.

Lemma followIndex_Done (g : IRGraph) (fuel : nat) (i j : Z) (cd : IRClassData) :
  followIndex fuel g i = Done (j, cd) ↔
  ∃ n, (n < fuel)%nat ∧ redirectsTo (classes g) n i j ∧
       seqIndex j (classes g) = Some (Class cd).
Proof.
  split.
  - revert i. induction fuel as [|fuel IH]; intros i; simpl; [done|].
    destruct (seqIndex i (classes g)) as [[|cd'|k]|] eqn:Hi; try done.
    + intros [= <- <-]. exists O. split; [lia|]. split; [by econstructor | done].
    + intros (n & Hn & Hchain & Hj)%IH. exists (S n).
      split; [lia|]. split; [by econstructor | done].
  - intros (n & Hn & Hchain & Hj).
    destruct (redirectsTo_followIndex g n i j Hchain) as (cd' & Hj' & Hfuel).
    rewrite (Hfuel fuel Hn). congruence.
Qed.

Lemma hops_followIndex (g : IRGraph) (n : nat) (i k : Z) :
  hops (classes g) n i k →
  ∀ fuel, followIndex (n + fuel) g i = followIndex fuel g k.
Proof.
  induction 1 as [i | n i k j Hi _ IH]; intros fuel; simpl; [done|].
  by rewrite Hi.
Qed.

Lemma hops_app (cs : list Entry) (a b : nat) (i j k : Z) :
  hops cs a i j → hops cs b j k → hops cs (a + b) i k.
Proof. induction 1; intros Hb; simpl; [done | econstructor; eauto]. Qed.

Lemma hops_prefix (cs : list Entry) (n m : nat) (i k : Z) :
  hops cs n i k → (m ≤ n)%nat → ∃ k', hops cs m i k'.
Proof.
  intros H. revert m. induction H as [i | n i k j Hi _ IH]; intros m Hm.
  - assert (m = O) as -> by lia. exists i. constructor.
  - destruct m as [|m]; [exists i; constructor|].
    destruct (IH m) as [k' Hk']; [lia|]. exists k'. by econstructor.
Qed.

Lemma followIndex_OutOfFuel (g : IRGraph) (fuel : nat) (i : Z) :
  followIndex fuel g i = OutOfFuel ↔ ∃ k, hops (classes g) fuel i k.
Proof.
  split.
  - revert i. induction fuel as [|fuel IH]; intros i; simpl.
    + intros _. exists i. constructor.
    + destruct (seqIndex i (classes g)) as [[|cd'|k]|] eqn:Hi; try done.
      intros [k' Hk']%IH. exists k'. by econstructor.
  - intros [k Hk]. rewrite <- (Nat.add_0_r fuel). by rewrite (hops_followIndex g fuel i k).
Qed.

(** [followIndex] returns an index and a class exactly when a chain of
    redirects shorter than the fuel leads from the index given to that
    index, and the entry there is that class. *)
Theorem followIndex_returns_live (g : IRGraph) (fuel : nat) (i j : Z) (cd : IRClassData) :
  followIndex fuel g i = Done (j, cd) ↔
  ∃ n, (n < fuel)%nat ∧ redirectsTo (classes g) n i j ∧
       seqIndex j (classes g) = Some (Class cd).
Proof. apply followIndex_Done. Qed.

(** [followIndex] crashes exactly when the redirects lead, within the
    fuel, to an empty entry or outside the arena. *)
Theorem followIndex_crashes_iff (g : IRGraph) (fuel : nat) (i : Z) :
  followIndex fuel g i = Crash ↔
  ∃ n k, (n < fuel)%nat ∧ hops (classes g) n i k ∧
         (seqIndex k (classes g) = None ∨ seqIndex k (classes g) = Some NoType).
Proof.
  split.
  - revert i. induction fuel as [|fuel IH]; intros i; simpl; [done|].
    destruct (seqIndex i (classes g)) as [[|cd'|k]|] eqn:Hi; try done.
    + intros _. exists O, i. split; [lia|]. split; [constructor | auto].
    + intros (n & k' & Hn & Hk' & Hend)%IH. exists (S n), k'.
      split; [lia|]. split; [by econstructor | done].
    + intros _. exists O, i. split; [lia|]. split; [constructor | auto].
  - intros (n & k & Hn & Hk & Hend).
    replace fuel with (n + S (fuel - S n))%nat by lia.
    rewrite (hops_followIndex g n i k Hk). simpl. by destruct Hend as [-> | ->].
Qed.

(** On a cycle of redirects [followIndex] never returns and never
    crashes: whatever the fuel, it runs out. *)
Theorem followIndex_cycle (g : IRGraph) (n : nat) (i : Z) :
  hops (classes g) (S n) i i → ∀ fuel, followIndex fuel g i = OutOfFuel.
Proof.
  intros Hcycle fuel. apply followIndex_OutOfFuel.
  assert (∀ m, hops (classes g) (m * S n) i i) as Hrounds.
  { induction m as [|m IH]; [constructor|].
    change (S m * S n)%nat with (S n + m * S n)%nat. by eapply hops_app. }
  apply (hops_prefix _ (fuel * S n) fuel i i (Hrounds fuel)). nia.
Qed.

Lemma followIndex_cycle_witness :
  followIndex 2 looping 0 = OutOfFuel ∧ followIndex 1000 looping 0 = OutOfFuel.
Proof.
  assert (hops (classes looping) 2 0 0) as Hcycle.
  { apply (hops_step _ 1 0 1 0); [reflexivity|].
    apply (hops_step _ 0 1 0 0); [reflexivity|]. apply hops_here. }
  split; apply (followIndex_cycle looping 1 0 Hcycle).
Defined.

(** The index [followIndex] returns is where it stays: followed again, it
    is returned at once with the same class, and so is the class by
    [getClassFromGraph] from either index. *)
Theorem followIndex_idempotent (g : IRGraph) (fuel : nat) (i j : Z) (cd : IRClassData) :
  followIndex fuel g i = Done (j, cd) →
  followIndex 1 g j = Done (j, cd) ∧
  getClassFromGraph 1 g j = Done cd ∧
  ∀ fuel', (fuel ≤ fuel')%nat → getClassFromGraph fuel' g i = Done cd.
Proof.
  intros (n & Hn & Hchain & Hj)%followIndex_Done.
  assert (followIndex 1 g j = Done (j, cd)) as H1 by (simpl; by rewrite Hj).
  split; [done|]. unfold getClassFromGraph. rewrite H1. split; [done|].
  intros fuel' Hf.
  assert (followIndex fuel' g i = Done (j, cd)) as ->; [|done].
  apply followIndex_Done. exists n. split; [lia | done].
Qed.

Lemma followIndex_idempotent_witness :
  followIndex 1 chained 2 = Done (2, node) ∧
  getClassFromGraph 1 chained 2 = Done node ∧
  ∀ fuel', (3 ≤ fuel')%nat → getClassFromGraph fuel' chained 3 = Done node.
Proof. exact (followIndex_idempotent chained 3 3 2 node eq_refl). Defined.

End ArenaFacts.

(** ** The classes of a graph *)

Module ClassesFacts.
Import IRGraph Chains ArenaProps RegatherProps.

Lemma imap_imap {A B C} (h : nat → A → B) (f : nat → B → C) (l : list A) :
  imap f (imap h l) = imap (λ i x, f i (h i x)) l.
Proof.
  revert h f. induction l as [|x l IH]; intros h f; [done|].
  rewrite !imap_cons. f_equal. apply IH.
Qed.

Lemma live_entries_sorted (f : nat → Z) (cs : list Entry) (k : nat) :
  (∀ a b, (a < b)%nat → f a < f b) →
  let l := concat (imap (λ i e, match e with
                                | Class cd => [(f (k + i)%nat, cd)]
                                | _ => []
                                end) cs) in
  StronglySorted Z.lt l.*1 ∧ Forall (λ x, f k ≤ x) l.*1 ∧
  (length l ≤ length cs)%nat.
Proof.
  intros Hf. revert k. induction cs as [|e cs IH]; intros k; cbv zeta.
  - repeat split; constructor.
  - rewrite imap_cons.
    rewrite (imap_ext _ (λ i e, match e with
                                | Class cd => [(f (S k + i)%nat, cd)]
                                | _ => []
                                end)); last first.
    { intros i x _. simpl. by replace (k + S i)%nat with (S (k + i))%nat by lia. }
    destruct (IH (S k)) as (Hs & Hge & Hlen).
    assert (Forall (λ x, f k < x)
              (concat (imap (λ i e, match e with
                                    | Class cd => [(f (S k + i)%nat, cd)]
                                    | _ => []
                                    end) cs)).*1) as Hgt.
    { eapply Forall_impl; [exact Hge|]. intros x Hx. simpl in Hx.
      apply Z.lt_le_trans with (f (S k)); [apply Hf; lia | done]. }
    assert (Forall (λ x, f k ≤ x)
              (concat (imap (λ i e, match e with
                                    | Class cd => [(f (S k + i)%nat, cd)]
                                    | _ => []
                                    end) cs)).*1) as Hge'.
    { eapply Forall_impl; [exact Hgt|]. intros x Hx. by apply Z.lt_le_incl. }
    destruct e as [|cd|j]; simpl.
    + split; [done|]. split; [done | by apply Nat.le_le_succ_r].
    + rewrite Nat.add_0_r. split; [by constructor|].
      split; [by constructor | by apply le_n_S].
    + split; [done|]. split; [done | by apply Nat.le_le_succ_r].
Qed.

(** [classesInGraph] lists the live entries of the arena with their
    indices, by increasing index, hence each once; empty entries and
    redirects are left out. *)
Theorem classesInGraph_live (g : IRGraph) :
  (∀ i cd, (i, cd) ∈ classesInGraph g ↔ seqIndex i (classes g) = Some (Class cd)) ∧
  StronglySorted Z.lt (classesInGraph g).*1 ∧
  (length (classesInGraph g) ≤ length (classes g))%nat.
Proof.
  split.
  - intros i cd. unfold classesInGraph. rewrite elem_of_mapClasses. split.
    + by intros (k & cd' & Hk & [= -> ->]).
    + intros H. eauto.
  - unfold classesInGraph, mapClasses.
    destruct (live_entries_sorted Z.of_nat (classes g) 0) as (Hs & _ & Hlen); [lia|].
    done.
Qed.

Lemma followIndex_mapClassesInSeq (f : Z → IRClassData → IRClassData)
    (cs : list Entry) (tl tl' : gmap string IRType) (fuel : nat) (i : Z) :
  followIndex fuel (mkIRGraph (mapClassesInSeq f cs) tl) i =
    match followIndex fuel (mkIRGraph cs tl') i with
    | Done (j, cd) => Done (j, f j cd)
    | Crash => Crash
    | OutOfFuel => OutOfFuel
    end.
Proof.
  revert i. induction fuel as [|fuel IH]; intros i; simpl; [done|].
  rewrite seqIndex_mapClassesInSeq.
  destruct (seqIndex i cs) as [[|cd|k]|]; simpl; [done | done | apply IH | done].
Qed.

(** Mapping the classes of an arena changes neither where an index leads
    nor whether following it crashes; the class found is the image of the
    class that was there.  Mapping with a function that returns the class
    leaves the arena as it is. *)
Theorem mapClassesInSeq_followIndex (f : Z → IRClassData → IRClassData)
    (g : IRGraph) (fuel : nat) (i : Z) :
  followIndex fuel (mkIRGraph (mapClassesInSeq f (classes g)) (toplevels g)) i =
    match followIndex fuel g i with
    | Done (j, cd) => Done (j, f j cd)
    | Crash => Crash
    | OutOfFuel => OutOfFuel
    end ∧
  length (mapClassesInSeq f (classes g)) = length (classes g) ∧
  mapClassesInSeq (λ _ cd, cd) (classes g) = classes g.
Proof.
  destruct g as [cs tl]. simpl. split; [apply followIndex_mapClassesInSeq|].
  split; [apply length_imap|].
  unfold mapClassesInSeq. induction cs as [|e cs IH]; [done|].
  rewrite imap_cons. f_equal; [by destruct e|]. apply IH.
Qed.

End ClassesFacts.

(** ** The two passes that regather names *)

Module RegatherFacts.
Import IRGraph Chains Regathering ArenaProps RegatherProps ClassesFacts.

Local Arguments combine : simpl never.

Lemma sameRefs_lookup (m m' : gmap string IRType) (p : string) (t : IRType) :
  sameRefs m m' → m !! p = Some t → ∃ t', m' !! p = Some t' ∧ classRefs t' = classRefs t.
Proof.
  intros H Hp. specialize (H p). rewrite Hp in H.
  destruct (m' !! p) as [t'|]; simplify_eq/=. eauto.
Qed.

Lemma sameRefs_sym (m m' : gmap string IRType) : sameRefs m m' → sameRefs m' m.
Proof. intros H p. by rewrite H. Qed.

Lemma sameArena_sym (g g' : IRGraph) : sameArena g g' → sameArena g' g.
Proof.
  intros (Hlen & Htop & Hcs). split; [done|]. split; [by apply sameRefs_sym|].
  intros i. specialize (Hcs i).
  destruct (seqIndex i (classes g)) as [[|cd|k]|], (seqIndex i (classes g')) as [[|cd'|k']|];
    try done. by apply sameRefs_sym.
Qed.

Lemma sameArena_Class (g g' : IRGraph) (i : Z) (cd : IRClassData) :
  sameArena g g' → seqIndex i (classes g) = Some (Class cd) →
  ∃ cd', seqIndex i (classes g') = Some (Class cd') ∧
         sameRefs (properties cd) (properties cd').
Proof.
  intros (_ & _ & Hcs) Hi. specialize (Hcs i). rewrite Hi in Hcs.
  destruct (seqIndex i (classes g')) as [[|cd'|k']|]; try done. eauto.
Qed.

Lemma sameArena_Redirect (g g' : IRGraph) (i k : Z) :
  sameArena g g' → seqIndex i (classes g) = Some (Redirect k) →
  seqIndex i (classes g') = Some (Redirect k).
Proof.
  intros (_ & _ & Hcs) Hi. specialize (Hcs i). rewrite Hi in Hcs.
  destruct (seqIndex i (classes g')) as [[|cd'|k']|]; try done. by subst.
Qed.

Lemma sameArena_redirectsTo (g g' : IRGraph) (n : nat) (i j : Z) :
  sameArena g g' → redirectsTo (classes g) n i j → redirectsTo (classes g') n i j.
Proof.
  intros Hg. induction 1 as [i cd Hi | n i k j Hi _ IH].
  - destruct (sameArena_Class g g' i cd Hg Hi) as (cd' & Hi' & _). by econstructor.
  - econstructor; [|done]. by apply (sameArena_Redirect g).
Qed.

Lemma sameArena_reachable (g g' : IRGraph) (i : Z) :
  sameArena g g' → reachable g i → reachable g' i.
Proof.
  intros Hg. induction 1 as [name t i Ht Hi | i k _ IH Hi | i cd p t k _ IH Hi Hp Hk].
  - destruct Hg as (_ & Htop & _).
    destruct (sameRefs_lookup _ _ _ _ Htop Ht) as (t' & Ht' & Hrefs).
    apply (reachable_toplevel g' name t'); [done | by rewrite Hrefs].
  - apply (reachable_redirect g' i k); [done | by apply (sameArena_Redirect g)].
  - destruct (sameArena_Class g g' i cd Hg Hi) as (cd' & Hi' & Hprops).
    destruct (sameRefs_lookup _ _ _ _ Hprops Hp) as (t' & Ht' & Hrefs).
    apply (reachable_property g' i cd' p t' k); try done. by rewrite Hrefs.
Qed.

Lemma sameArena_indexUsed (g g' : IRGraph) (i : Z) :
  sameArena g g' → indexUsed g i → indexUsed g' i.
Proof.
  intros Hg [(name & t & Ht & Hi) | [(k & cd & p & t & Hk & Hp & Hi) | (k & Hk)]].
  - destruct Hg as (_ & Htop & _).
    destruct (sameRefs_lookup _ _ _ _ Htop Ht) as (t' & Ht' & Hrefs).
    left. exists name, t'. by rewrite Hrefs.
  - destruct (sameArena_Class g g' k cd Hg Hk) as (cd' & Hk' & Hprops).
    destruct (sameRefs_lookup _ _ _ _ Hprops Hp) as (t' & Ht' & Hrefs).
    right; left. exists k, cd', p, t'. by rewrite Hrefs.
  - right; right. exists k. by apply (sameArena_Redirect g).
Qed.

Lemma sameArena_integrity (g g' : IRGraph) :
  sameArena g g' → arenaIntegrity g → arenaIntegrity g'.
Proof.
  intros Hg Hint i Hi. pose proof (sameArena_sym _ _ Hg) as Hg'.
  destruct (Hint i (sameArena_indexUsed g' g i Hg' Hi)) as (Hb & n & j & Hchain).
  pose proof Hg as (Hlen & _). rewrite Hlen. split; [done|].
  exists n, j. by apply (sameArena_redirectsTo g).
Qed.

Section Passes.
Variable singular : string → string.

Lemma updateType_classRefs t : ∀ name, classRefs (updateType singular name t) = classRefs t.
Proof.
  induction t as [| | | | | | |a IH|j|m IH| |n p a c m e IHa IHm] using IRType_nested_ind;
    intros name; simpl; try done.
  destruct a as [a|], m as [m|]; simpl in *; by rewrite ?IHa, ?IHm.
Qed.

Lemma updateType_gatherFromType t : ∀ name p,
  gatherFromType singular p (updateType singular name t) = gatherFromType singular p t.
Proof.
  induction t as [| | | | | | |a IH|j|m IH| |n q a c m e IHa IHm] using IRType_nested_ind;
    intros name p; simpl; try done.
  destruct a as [a|], m as [m|]; simpl in *; by rewrite ?IHa, ?IHm.
Qed.

Lemma lookup_updated {K} `{Countable K} (f : K → IRType → IRType) (m : gmap K IRType) (k : K) :
  map_imap (λ k t, Some (f k t)) m !! k = f k <$> m !! k.
Proof. rewrite map_lookup_imap. by destruct (m !! k). Qed.

Lemma sameArena_regatherClassNames (g : IRGraph) :
  sameArena g (regatherClassNames singular g).
Proof.
  destruct (regatherClassNames_frame singular g) as (Htop & Hlen & Hcs).
  split; [done|]. split; [by rewrite Htop|]. intros i. rewrite Hcs.
  by destruct (seqIndex i (classes g)) as [[|cd|k]|].
Qed.

Lemma sameArena_regatherUnionNames (g : IRGraph) :
  sameArena g (regatherUnionNames singular g).
Proof.
  split; [apply length_imap|]. split.
  - intros p. simpl. rewrite lookup_updated.
    destruct (toplevels g !! p); simpl; [|done]. by rewrite updateType_classRefs.
  - intros i. simpl. rewrite seqIndex_mapClassesInSeq.
    destruct (seqIndex i (classes g)) as [[|cd|k]|]; simpl; try done.
    intros p. rewrite lookup_updated.
    destruct (properties cd !! p); simpl; [|done]. by rewrite updateType_classRefs.
Qed.

(** [regatherClassNames] keeps arena integrity, and what is reachable from
    the top levels. *)
Theorem regatherClassNames_integrity (g : IRGraph) :
  (arenaIntegrity g ↔ arenaIntegrity (regatherClassNames singular g)) ∧
  ∀ i, reachable g i ↔ reachable (regatherClassNames singular g) i.
Proof.
  pose proof (sameArena_regatherClassNames g) as Hg.
  pose proof (sameArena_sym _ _ Hg) as Hg'.
  split; [split | intros i; split];
    eauto using sameArena_integrity, sameArena_reachable.
Qed.

(** [regatherUnionNames] keeps arena integrity, and what is reachable from
    the top levels: it changes no class reference, in any type. *)
Theorem regatherUnionNames_integrity (g : IRGraph) :
  (arenaIntegrity g ↔ arenaIntegrity (regatherUnionNames singular g)) ∧
  (∀ i, reachable g i ↔ reachable (regatherUnionNames singular g) i) ∧
  ∀ name t, classRefs (updateType singular name t) = classRefs t.
Proof.
  pose proof (sameArena_regatherUnionNames g) as Hg.
  pose proof (sameArena_sym _ _ Hg) as Hg'.
  split; [split | split; [intros i; split | intros name t; apply updateType_classRefs]];
    eauto using sameArena_integrity, sameArena_reachable.
Qed.

Lemma newNames_regatherClassNames (g : IRGraph) :
  newNames singular (regatherClassNames singular g) = newNames singular g.
Proof.
  unfold newNames, mapClasses. simpl. unfold mapClassesInSeq. rewrite imap_imap.
  do 2 f_equal. apply imap_ext. intros i e _. by destruct e.
Qed.

(** Regathering class names twice is regathering them once. *)
Theorem regatherClassNames_idempotent (g : IRGraph) :
  regatherClassNames singular (regatherClassNames singular g)
  = regatherClassNames singular g.
Proof.
  unfold regatherClassNames at 1 3. simpl. f_equal.
  unfold mapClassesInSeq. rewrite imap_imap. apply imap_ext.
  intros i e _. destruct e as [|cd|k]; try done. f_equal.
  unfold classMapper. simpl. rewrite newNames_regatherClassNames. f_equal.
  destruct (classNames cd) as [s|old]; simpl; [done|]. f_equal.
  by destruct (newNames singular g !! Z.of_nat i).
Qed.

Lemma reassign_idem (name : Named string) (n : Named (gset string)) :
  reassign name (reassign name n) = reassign name n.
Proof. destruct name as [x|x], n as [s|s]; simpl; f_equal; set_solver. Qed.

Lemma updateType_idem t : ∀ name,
  updateType singular name (updateType singular name t) = updateType singular name t.
Proof.
  induction t as [| | | | | | |a IH|j|m IH| |n p a c m e IHa IHm] using IRType_nested_ind;
    intros name; simpl; try done; try (by rewrite IH).
  rewrite reassign_idem.
  destruct a as [a|], m as [m|]; simpl in *; by rewrite ?IHa, ?IHm.
Qed.

(** Regathering union names twice is regathering them once. *)
Theorem regatherUnionNames_idempotent (g : IRGraph) :
  regatherUnionNames singular (regatherUnionNames singular g)
  = regatherUnionNames singular g.
Proof.
  unfold regatherUnionNames at 1 3. simpl. f_equal.
  - unfold mapClassesInSeq. rewrite imap_imap. apply imap_ext.
    intros i e _. destruct e as [|cd|k]; try done. simpl. do 2 f_equal.
    apply map_eq. intros p. rewrite !lookup_updated.
    destruct (properties cd !! p); simpl; [|done]. by rewrite updateType_idem.
  - apply map_eq. intros n. rewrite !lookup_updated.
    destruct (toplevels g !! n); simpl; [|done]. by rewrite updateType_idem.
Qed.

Lemma option_set_eq (o1 o2 : option (gset string)) :
  (is_Some o1 ↔ is_Some o2) →
  (∀ x, (∃ s, o1 = Some s ∧ x ∈ s) ↔ (∃ s, o2 = Some s ∧ x ∈ s)) →
  o1 = o2.
Proof.
  intros Hs Hx. destruct o1 as [s1|], o2 as [s2|].
  - f_equal. apply set_eq. intros x. split; intros Hin.
    + destruct (Hx x) as [(s & [= <-] & H) _]; eauto.
    + destruct (Hx x) as [_ (s & [= <-] & H)]; eauto.
  - destruct Hs as [[? ?] _]; [eauto | done].
  - destruct Hs as [_ [? ?]]; [eauto | done].
  - done.
Qed.

(** [combine] depends only on which maps the list holds. *)
Lemma combine_ext (l1 l2 : list (gmap Z (gset string))) :
  (∀ m, m ∈ l1 ↔ m ∈ l2) → combine l1 = combine l2.
Proof.
  intros H. apply map_eq. intros i. apply option_set_eq.
  - rewrite !combine_is_Some. by setoid_rewrite H.
  - intros x. pose proof (gathered_combine l1 i x) as H1.
    pose proof (gathered_combine l2 i x) as H2. unfold gathered in *.
    rewrite H1, H2. by setoid_rewrite H.
Qed.

Lemma gatherFromClassData_updated (i : Z) (cd : IRClassData) (n : Named (gset string)) :
  gatherFromClassData singular i
    (mkIRClassData n
       (map_imap (λ p t, Some (updateType singular (Inferred p) t)) (properties cd)))
  = gatherFromClassData singular i cd.
Proof.
  unfold gatherFromClassData. apply combine_ext. intros m.
  rewrite !elem_of_gatherFromClassData_list. simpl. split.
  - intros (p & t' & Hp & ->). rewrite lookup_updated in Hp.
    destruct (properties cd !! p) as [t|] eqn:Ht; simplify_eq/=.
    exists p, t. by rewrite updateType_gatherFromType.
  - intros (p & t & Hp & ->).
    exists p, (updateType singular (Inferred p) t).
    by rewrite lookup_updated, Hp, updateType_gatherFromType.
Qed.

Lemma newNames_regatherUnionNames (g : IRGraph) :
  newNames singular (regatherUnionNames singular g) = newNames singular g.
Proof.
  unfold newNames, mapClasses. simpl. unfold mapClassesInSeq. rewrite imap_imap.
  do 2 f_equal. apply imap_ext. intros i e _. destruct e as [|cd|k]; try done.
  by rewrite gatherFromClassData_updated.
Qed.

Lemma classMapper_regatherUnionNames (g : IRGraph) :
  classMapper singular (regatherUnionNames singular g) = classMapper singular g.
Proof. unfold classMapper. by rewrite newNames_regatherUnionNames. Qed.

(** The two passes commute. *)
Theorem regather_commute (g : IRGraph) :
  regatherClassNames singular (regatherUnionNames singular g)
  = regatherUnionNames singular (regatherClassNames singular g).
Proof.
  unfold regatherClassNames. rewrite classMapper_regatherUnionNames.
  unfold regatherUnionNames. simpl. f_equal.
  unfold mapClassesInSeq. rewrite !imap_imap. apply imap_ext.
  intros i e _. by destruct e.
Qed.

(** [regatherUnionNames] keeps the names and the property keys of every
    class.  A union that is the type of a property keeps a given name set
    and otherwise is named after the property alone; a union that is a
    top level gets a given name set that holds the name of the top level,
    next to the given names it had.  The bits and the class and
    enumeration slots of the union stay. *)
Theorem regatherUnionNames_names (g : IRGraph) :
  (∀ i cd,
     seqIndex i (classes g) = Some (Class cd) →
     ∃ cd',
       seqIndex i (classes (regatherUnionNames singular g)) = Some (Class cd') ∧
       classNames cd' = classNames cd ∧
       dom (properties cd') = dom (properties cd)) ∧
  (∀ i cd p u,
     seqIndex i (classes g) = Some (Class cd) →
     properties cd !! p = Some (IRUnion u) →
     ∃ cd' u',
       seqIndex i (classes (regatherUnionNames singular g)) = Some (Class cd') ∧
       classNames cd' = classNames cd ∧
       dom (properties cd') = dom (properties cd) ∧
       properties cd' !! p = Some (IRUnion u') ∧
       names u' = match names u with
                  | Given s => Given s
                  | Inferred _ => Inferred {[p]}
                  end ∧
       primitives u' = primitives u ∧ classRef u' = classRef u ∧
       enumData u' = enumData u) ∧
  (∀ n u,
     toplevels g !! n = Some (IRUnion u) →
     ∃ u',
       toplevels (regatherUnionNames singular g) !! n = Some (IRUnion u') ∧
       names u' = match names u with
                  | Given s => Given ({[n]} ∪ s)
                  | Inferred _ => Given {[n]}
                  end ∧
       primitives u' = primitives u ∧ classRef u' = classRef u ∧
       enumData u' = enumData u).
Proof.
  split; [|split].
  - intros i cd Hi.
    exists (mkIRClassData (classNames cd)
              (map_imap (λ p t, Some (updateType singular (Inferred p) t)) (properties cd))).
    simpl. rewrite seqIndex_mapClassesInSeq, Hi. simpl.
    split; [done|]. split; [done|].
    apply set_eq. intros k. rewrite !elem_of_dom, lookup_updated.
    by rewrite fmap_is_Some.
  - intros i cd p u Hi Hp.
    exists (mkIRClassData (classNames cd)
              (map_imap (λ p t, Some (updateType singular (Inferred p) t)) (properties cd))).
    destruct (updateType singular (Inferred p) (IRUnion u)) as [| | | | | | | | | | |u'] eqn:Hu;
      try (by destruct u).
    exists u'. simpl. rewrite seqIndex_mapClassesInSeq, Hi. simpl.
    split; [done|]. split; [done|]. split; [|split].
    + apply set_eq. intros k. rewrite !elem_of_dom, lookup_updated.
      by rewrite fmap_is_Some.
    + by rewrite lookup_updated, Hp, <- Hu.
    + destruct u as [n q a c m e]. simpl in Hu. injection Hu as <-. simpl.
      by destruct n.
  - intros k u Hk.
    destruct (updateType singular (Given k) (IRUnion u)) as [| | | | | | | | | | |u'] eqn:Hu;
      try (by destruct u).
    exists u'. split.
    { unfold regatherUnionNames. cbn [toplevels]. by rewrite lookup_updated, Hk, <- Hu. }
    destruct u as [n q a c m e]. simpl in Hu. injection Hu as <-. simpl.
    by destruct n.
Qed.

End Passes.

Lemma regatherUnionNames_names_witness :
  let u := mkIRUnionRep (Inferred ∅) irUnion_Null None (Some 1) None None in
  let g := mkIRGraph [Class (mkIRClassData (Inferred ∅) {["owner"%string := IRUnion u]})]
             {["top"%string := IRUnion u]} in
  ∃ u',
    toplevels (regatherUnionNames singular g) !! "top"%string = Some (IRUnion u') ∧
    names u' = Given {["top"%string]} ∧
    primitives u' = primitives u ∧ classRef u' = classRef u ∧
    enumData u' = enumData u.
Proof.
  intros u g.
  exact (proj2 (proj2 (regatherUnionNames_names singular g)) "top"%string u eq_refl).
Defined.

End RegatherFacts.

(** ** Matching properties *)

Module MatchingFacts.
Import IRGraph RegatherProps.

Section Matching.
Context {V : Type} `{EqDecision V}.

Lemma elem_of_matching (ma mb : gmap string V) (k : string) (v : V) :
  (k, v) ∈ concat (map (λ kv : string * V,
                          let '(k, va) := kv in
                          match mb !! k with
                          | Some vb => if decide (va = vb) then [(k, vb)] else []
                          | None => []
                          end) (map_to_list ma)) ↔
  ma !! k = Some v ∧ mb !! k = Some v.
Proof.
  rewrite elem_of_concat. change (map ?f ?l) with (f <$> l). split.
  - intros (l & ([k' va] & -> & Hin%elem_of_map_to_list)%list_elem_of_fmap & Hkv).
    destruct (mb !! k') as [vb|] eqn:Hb; [|by apply elem_of_nil in Hkv].
    destruct (decide (va = vb)) as [->|]; [|by apply elem_of_nil in Hkv].
    apply list_elem_of_singleton in Hkv as [= -> ->]. done.
  - intros [Ha Hb]. exists [(k, v)]. split; [|by apply list_elem_of_singleton].
    apply list_elem_of_fmap. exists (k, v). rewrite Hb.
    split; [by rewrite decide_True | by apply elem_of_map_to_list].
Qed.

Lemma lookup_matchingProperties (ma mb : gmap string V) (k : string) (v : V) :
  matchingProperties ma mb !! k = Some v ↔ ma !! k = Some v ∧ mb !! k = Some v.
Proof.
  unfold matchingProperties. rewrite <- elem_of_list_to_map'.
  - apply elem_of_matching.
  - intros v' [Ha _]%elem_of_matching [Ha' _]%elem_of_matching. congruence.
Qed.

(** [matchingProperties] keeps the keys the two maps have with the same
    value, and nothing else. *)
Theorem matchingProperties_lookup (ma mb : gmap string V) (k : string) (v : V) :
  matchingProperties ma mb !! k = Some v ↔ ma !! k = Some v ∧ mb !! k = Some v.
Proof. apply lookup_matchingProperties. Qed.

(** [matchingProperties] is commutative and idempotent, and what it
    returns is part of both maps; with the empty map it is empty. *)
Theorem matchingProperties_comm (ma mb : gmap string V) :
  matchingProperties ma mb = matchingProperties mb ma ∧
  matchingProperties ma ma = ma ∧
  matchingProperties ma mb ⊆ ma ∧ matchingProperties ma mb ⊆ mb ∧
  matchingProperties ma ∅ = ∅ ∧ matchingProperties ∅ mb = ∅.
Proof.
  assert (∀ m1 m2 : gmap string V,
            (∀ k v, m1 !! k = Some v ↔ m2 !! k = Some v) → m1 = m2) as Hext.
  { intros m1 m2 H. apply map_eq. intros k.
    destruct (m1 !! k) as [v|] eqn:H1.
    - symmetry. by apply H.
    - destruct (m2 !! k) as [v|] eqn:H2; [|done]. apply H in H2. congruence. }
  split; [|split; [|split; [|split; [|split]]]].
  - apply Hext. intros k v. rewrite !lookup_matchingProperties. tauto.
  - apply Hext. intros k v. rewrite lookup_matchingProperties. tauto.
  - apply map_subseteq_spec. by intros k v [? _]%lookup_matchingProperties.
  - apply map_subseteq_spec. by intros k v [_ ?]%lookup_matchingProperties.
  - apply Hext. intros k v. rewrite lookup_matchingProperties, lookup_empty. naive_solver.
  - apply Hext. intros k v. rewrite lookup_matchingProperties, lookup_empty. naive_solver.
Qed.

End Matching.

End MatchingFacts.

(** ** Rendering types *)

Module RenderFacts.
Import Renderer Rendering Renderable RendererProps.

Local Open Scope string_scope.

(** Induction over types, through the members of a union. *)
Lemma Type_nested_ind (P : Type_ → Prop) :
  (∀ kind, P (PrimitiveType kind)) →
  (∀ items, P items → P (ArrayType items)) →
  (∀ values, P values → P (MapType values)) →
  (∀ id c props, P (OfNamedType (ClassType id c props))) →
  (∀ id c cases, P (OfNamedType (EnumType id c cases))) →
  (∀ id c children, Forall P children → P (OfNamedType (UnionType id c children))) →
  ∀ t, P t.
Proof.
  intros Hprim Harray Hmap Hclass Henum Hunion.
  fix IH 1.
  intros [kind|items|values|[id c props|id c cases|id c children]];
    [apply Hprim | apply Harray, IH | apply Hmap, IH | apply Hclass | apply Henum | ].
  apply Hunion. induction children as [|x l IHl]; constructor; [apply IH | apply IHl].
Qed.

Lemma reads_nameForNamedType (t : NamedType) (s : RendererState) :
  reads (nameForNamedType t s) s
    (bool_decide (is_Some (namesForNamedTypes s !! typeId t))).
Proof.
  rewrite nameForNamedType_spec. unfold reads, knownMessage.
  destruct (namesForNamedTypes s !! typeId t); simpl; auto.
Qed.

Lemma reads_bind {A B} (c : Render A) (k : A → Render B) (s : RendererState)
    (ok1 ok2 : bool) :
  reads (c s) s ok1 →
  (∀ a, ok1 = true → reads (k a s) s ok2) →
  reads ((c >>= k) s) s (ok1 && ok2).
Proof.
  unfold reads. simpl. destruct (c s) as [a s'|msg s'|]; [| |done].
  - intros [-> ->] Hk. simpl. by apply Hk.
  - intros (-> & -> & Hmsg) _. done.
Qed.

Lemma reads_map {A B} (c : Render A) (g : A → B) (s : RendererState) (ok : bool) :
  reads (c s) s ok → reads ((c >>= λ a, pure (g a)) s) s ok.
Proof. unfold reads. simpl. by destruct (c s). Qed.

Lemma reads_traverse (f : Type_ → Render Sourcelike) (ok : Type_ → bool)
    (l : list Type_) (s : RendererState) :
  Forall (λ t, reads (f t s) s (ok t)) l →
  reads (traverse f l s) s (forallb ok l).
Proof.
  induction 1 as [|t l Ht _ IH]; [done|].
  change (reads ((f t >>= λ y, traverse f l >>= λ ys, pure (y :: ys)) s) s
            (ok t && forallb ok l)).
  apply reads_bind; [done|]. intros y _. by apply reads_map.
Qed.

Lemma reads_typeMapTypeFor (t : Type_) (s : RendererState) :
  reads (typeMapTypeFor t s) s (mappable (namesForNamedTypes s) t).
Proof.
  induction t as [kind|items IH|values IH|id c props|id c cases|id c children IH]
    using Type_nested_ind.
  - by destruct kind.
  - by apply (reads_map (typeMapTypeFor items)).
  - by apply (reads_map (typeMapTypeFor values)).
  - apply (reads_map (nameForNamedType (ClassType id c props))).
    apply (reads_nameForNamedType (ClassType id c props)).
  - simpl. unfold knownMessage. auto.
  - apply (reads_map (traverse typeMapTypeFor children)). by apply reads_traverse.
Qed.

(** [typeMapTypeFor] never changes the renderer.  It returns exactly when
    the type holds no enumeration and every class in it has a name;
    otherwise it throws, for the first enumeration or unnamed class it
    meets, one of the two messages of the renderer. *)
Theorem typeMapTypeFor_outcome (t : Type_) (s : RendererState) :
  match typeMapTypeFor t s with
  | Returned _ s' => s' = s ∧ mappable (namesForNamedTypes s) t = true
  | Threw msg s' =>
      s' = s ∧ mappable (namesForNamedTypes s) t = false ∧ knownMessage msg
  | Exhausted => False
  end.
Proof. apply (reads_typeMapTypeFor t s). Qed.

Lemma nullableFromUnion_elem_of (children : list Type_) (n : Type_) :
  nullableFromUnion children = Some n → n ∈ children.
Proof.
  unfold nullableFromUnion. destruct (existsb isNull children); [|done].
  destruct (filter _ children) as [|x [|y l]] eqn:Hf; try done.
  intros [= ->].
  assert (n ∈ filter (λ t, isNull t = false) children) as Hin
    by (rewrite Hf; by apply list_elem_of_singleton).
  by apply list_elem_of_filter in Hin as [_ ?].
Qed.

Lemma list_max_elem_of (l : list nat) (x : nat) : x ∈ l → (x ≤ list_max l)%nat.
Proof.
  induction 1 as [x l | x y l _ IH]; simpl; [apply Nat.le_max_l|].
  etrans; [exact IH | apply Nat.le_max_r].
Qed.

Lemma forallb_elem_of {A} (f : A → bool) (l : list A) (x : A) :
  forallb f l = true → x ∈ l → f x = true.
Proof.
  intros H Hin. apply list_elem_of_In in Hin.
  by apply (proj1 (forallb_forall f l) H).
Qed.

Lemma renders_map {A B} (c : Render A) (g : A → B) (s : RendererState) (ok : bool)
    (d fuel : nat) :
  renders (c s) s ok d fuel →
  renders ((c >>= λ a, pure (g a)) s) s ok (S d) (S fuel).
Proof.
  unfold renders. simpl. destruct (c s); [|done|]; intros H.
  - destruct H as (-> & -> & Hd). split; [done|]. split; [done | by apply le_n_S].
  - by apply Nat.succ_lt_mono in H.
Qed.

Lemma renders_traverse (f : Type_ → Render Sourcelike) (ok : Type_ → bool)
    (dp : Type_ → nat) (l : list Type_) (s : RendererState) (fuel : nat) :
  Forall (λ t, renders (f t s) s (ok t) (dp t) fuel) l →
  renders (traverse f l s) s (forallb ok l) (list_max (map dp l)) fuel.
Proof.
  induction 1 as [|t l Ht _ IH].
  - simpl. repeat split. apply Nat.le_0_l.
  - change (traverse f (t :: l) s) with
      ((f t >>= λ y, traverse f l >>= λ ys, pure (y :: ys)) s).
    unfold renders in *. simpl.
    destruct (f t s) as [y s'|msg s'|].
    + destruct Ht as (-> & -> & Hd). destruct (traverse f l s) as [ys s'|msg s'|].
      * destruct IH as (-> & -> & Hl). split; [done|]. split; [done|].
        by apply Nat.max_lub.
      * by destruct IH as (-> & -> & ?).
      * eapply Nat.lt_le_trans; [exact IH | apply Nat.le_max_r].
    + destruct Ht as (-> & -> & ?). done.
    + eapply Nat.lt_le_trans; [exact Ht | apply Nat.le_max_l].
Qed.

Section SourceFor.
Variable inlineUnions : bool.

Lemma renders_sourceFor (fuel : nat) : ∀ (t : Type_) (s : RendererState),
  renders (sourceFor inlineUnions fuel t s) s
    (renderable inlineUnions (namesForNamedTypes s) t) (calls inlineUnions t) fuel.
Proof.
  induction fuel as [|fuel IH]; intros t s.
  { simpl. destruct t as [| | |[| |]]; simpl; try lia. destruct (_ || _); lia. }
  destruct t as [kind|items|values|[id c props|id c cases|id c children]].
  - destruct kind; simpl; (split; [done|]; split; [done|lia]).
  - pose proof (IH items s) as Hitems. simpl. unfold renders in *. simpl.
    destruct (sourceFor inlineUnions fuel items s) as [itemType s'|msg s'|];
      [|done|lia].
    destruct Hitems as (-> & Hok & Hd).
    destruct items as [kind|items'|values'|[id c props|id c cases|id c children]];
      simpl; try (split; [done|]; split; [exact Hok | simpl in Hd; lia]).
    simpl in Hok, Hd.
    destruct inlineUnions eqn:Hinline; simpl in *;
      [|split; [done|]; split; [exact Hok | lia]].
    destruct (nullableFromUnion children) as [nullable|] eqn:Hnull; simpl;
      [|split; [done|]; split; [exact Hok | lia]].
    pose proof (nullableFromUnion_elem_of _ _ Hnull) as Hin.
    pose proof (forallb_elem_of _ _ _ Hok Hin) as Hn.
    assert (calls true nullable ≤ list_max (map (calls true) children))%nat as Hc.
    { apply list_max_elem_of. change (map ?f ?l) with (f <$> l).
      apply list_elem_of_fmap. eauto. }
    pose proof (IH nullable s) as Hnullable.
    destruct (sourceFor true fuel nullable s) as [n s'|msg s'|].
    + destruct Hnullable as (-> & _ & _). split; [done|]. split; [exact Hok | lia].
    + destruct Hnullable as (_ & Hfalse & _). congruence.
    + lia.
  - simpl renderable. simpl calls.
    apply (renders_map (sourceFor inlineUnions fuel values)). apply IH.
  - pose proof (reads_nameForNamedType (ClassType id c props) s) as Hname.
    simpl. unfold renders, reads in *. simpl.
    destruct (nameForNamedType (ClassType id c props) s) as [n s'|msg s'|]; [| |done].
    + destruct Hname as [-> Hn]. split; [done|]. split; [exact Hn | lia].
    + done.
  - simpl. unfold knownMessage. auto.
  - simpl sourceFor. simpl renderable. simpl calls.
    destruct (inlineUnions || bool_decide (is_Some (nullableFromUnion children))).
    + apply (renders_map (traverse (sourceFor inlineUnions fuel) children)).
      apply renders_traverse. apply Forall_forall. intros t _. apply IH.
    + pose proof (reads_nameForNamedType (UnionType id c children) s) as Hname.
      unfold renders, reads in *. simpl.
      destruct (nameForNamedType (UnionType id c children) s) as [n s'|msg s'|]; [| |done].
      * destruct Hname as [-> Hn]. split; [done|]. split; [exact Hn | lia].
      * done.
Qed.

(** [sourceFor] never changes the renderer.  Given fuel for the calls it
    nests, it returns exactly when the type is renderable: no enumeration
    and no unnamed class in what it enters, and a name for every union it
    does not enter; otherwise it throws one of the two messages of the
    renderer.  It runs out of fuel only when given less. *)
Theorem sourceFor_outcome (fuel : nat) (t : Type_) (s : RendererState) :
  match sourceFor inlineUnions fuel t s with
  | Returned _ s' =>
      s' = s ∧ renderable inlineUnions (namesForNamedTypes s) t = true ∧
      (calls inlineUnions t ≤ fuel)%nat
  | Threw msg s' =>
      s' = s ∧ renderable inlineUnions (namesForNamedTypes s) t = false ∧
      knownMessage msg
  | Exhausted => (fuel < calls inlineUnions t)%nat
  end.
Proof. apply (renders_sourceFor fuel t s). Qed.

End SourceFor.

Section FieldNames.
Variable spellings : Name → option string.
Variable propertyNameStyle : string → string.

Lemma keeps_map {A B} (c : Render A) (g : A → B) (s : RendererState) (ok : bool) :
  keeps (c s) s ok → keeps ((c >>= λ a, pure (g a)) s) s ok.
Proof. unfold keeps. simpl. by destruct (c s). Qed.

Lemma keeps_typeNameForUnionMember (t : Type_) (s : RendererState) :
  keeps (typeNameForUnionMember spellings t s) s
    (fieldNameable spellings (namesForNamedTypes s) t).
Proof.
  induction t as [kind|items IH|values IH|[id c props|id c cases|id c children]].
  - by destruct kind.
  - by apply (keeps_map (typeNameForUnionMember spellings items)).
  - by apply (keeps_map (typeNameForUnionMember spellings values)).
  - simpl. rewrite nameForNamedType_spec. simpl.
    destruct (namesForNamedTypes s !! id) as [n|]; simpl; [|done].
    by destruct (spellings n).
  - done.
  - done.
Qed.

(** [unionFieldName] never changes the renderer.  It returns for every
    type but a class, under arrays and maps, that has no name or whose
    name has no spelling: an enumeration is the field [enum] and a union
    the field [union], neither is entered.  Each array level adds
    [_array] to the name of the field and each map level [_map], before
    the style is applied. *)
Theorem unionFieldName_outcome (t : Type_) (s : RendererState) :
  keeps (unionFieldName spellings propertyNameStyle t s) s
    (fieldNameable spellings (namesForNamedTypes s) t) ∧
  (∀ id c cases,
     unionFieldName spellings propertyNameStyle (OfNamedType (EnumType id c cases)) s
     = Returned (propertyNameStyle "enum") s) ∧
  (∀ id c children,
     unionFieldName spellings propertyNameStyle (OfNamedType (UnionType id c children)) s
     = Returned (propertyNameStyle "union") s) ∧
  (∀ x, typeNameForUnionMember spellings t s = Returned x s →
     unionFieldName spellings propertyNameStyle (ArrayType t) s
     = Returned (propertyNameStyle (x ++ "_array")) s ∧
     unionFieldName spellings propertyNameStyle (MapType t) s
     = Returned (propertyNameStyle (x ++ "_map")) s).
Proof.
  split; [apply keeps_map, keeps_typeNameForUnionMember|].
  split; [done|]. split; [done|].
  intros x Hx. unfold unionFieldName. simpl. by rewrite Hx.
Qed.

End FieldNames.

End RenderFacts.

(** ** Setting up names *)

Module NamingFacts.
Import Renderer Rendering Renderable RendererProps.

Lemma addNamedForNamedType_run (t : NamedType) (s : RendererState) :
  addNamedForNamedType t s =
    match namesForNamedTypes s !! typeId t with
    | Some existing => Returned existing s
    | None =>
        let n := SimpleName (combined t) NamedTypeNamer in
        Returned n
          (mkRendererState (globalNamespace s ++ [n]) (topLevelNames s)
             (<[typeId t := n]> (namesForNamedTypes s)) (propertyNames s)
             (annotations s))
    end.
Proof.
  unfold addNamedForNamedType. simpl.
  by destruct (namesForNamedTypes s !! typeId t).
Qed.

(** [addNamedForNamedType] returns a name that [nameForNamedType] then
    finds; called again it returns the same name and changes nothing.  A
    named type that has a name keeps it and nothing is registered; one
    that has none gets a simple name from its combined name, added at the
    end of the global namespace.  The names of the other named types, the
    top-level names, the property names and the annotations stay. *)
Theorem addNamedForNamedType_roundtrip (t : NamedType) (s : RendererState) :
  ∃ n s',
    addNamedForNamedType t s = Returned n s' ∧
    nameForNamedType t s' = Returned n s' ∧
    addNamedForNamedType t s' = Returned n s' ∧
    (∀ t', typeId t' ≠ typeId t →
       namesForNamedTypes s' !! typeId t' = namesForNamedTypes s !! typeId t') ∧
    match namesForNamedTypes s !! typeId t with
    | Some existing => n = existing ∧ s' = s
    | None =>
        n = SimpleName (combined t) NamedTypeNamer ∧
        globalNamespace s' = globalNamespace s ++ [n]
    end ∧
    topLevelNames s' = topLevelNames s ∧ propertyNames s' = propertyNames s ∧
    annotations s' = annotations s.
Proof.
  rewrite addNamedForNamedType_run.
  destruct (namesForNamedTypes s !! typeId t) as [existing|] eqn:Ht.
  - exists existing, s. rewrite addNamedForNamedType_run, nameForNamedType_spec, Ht.
    repeat split; done.
  - eexists _, _. split; [done|].
    rewrite addNamedForNamedType_run, nameForNamedType_spec. simpl.
    rewrite lookup_insert_eq. repeat split; try done.
    intros t' Hne. by rewrite lookup_insert_ne.
Qed.

Lemma for__invariant {A} (f : A → Render unit) (P : RendererState → Prop) (l : list A) :
  (∀ x s, x ∈ l → P s → ∃ s', f x s = Returned tt s' ∧ P s') →
  ∀ s, P s → ∃ s', for_ l f s = Returned tt s' ∧ P s'.
Proof.
  induction l as [|x l IH]; intros Hf s Hs; simpl; [eauto|].
  destruct (Hf x s) as (s1 & -> & Hs1); [by left | done |].
  apply IH; [|done]. intros y s' Hy. apply Hf. by right.
Qed.

Lemma traverse_invariant {A B} (f : A → Render B) (g : A → B)
    (P : RendererState → Prop) (l : list A) :
  (∀ x s, x ∈ l → P s → ∃ s', f x s = Returned (g x) s' ∧ P s') →
  ∀ s, P s → ∃ s', traverse f l s = Returned (map g l) s' ∧ P s'.
Proof.
  induction l as [|x l IH]; intros Hf s Hs; [simpl; eauto|].
  destruct (Hf x s) as (s1 & Hx & Hs1); [by left | done |].
  destruct (IH (λ y s' Hy, Hf y s' (proj2 (elem_of_cons l y x) (or_intror Hy))) s1 Hs1)
    as (s2 & Hl & Hs2).
  exists s2. split; [|done]. simpl in Hl |- *. by rewrite Hx, Hl.
Qed.

Lemma lookup_styled (F : string → Name) (l : list (string * Type_)) (name : string) :
  (list_to_map (map (λ '(name, _), (name, F name)) l) : gmap string Name) !! name
  = if decide (name ∈ l.*1) then Some (F name) else None.
Proof.
  induction l as [|[n t] l IH].
  - simpl. apply lookup_empty.
  - change (list_to_map (map _ ((n, t) :: l)) : gmap string Name)
      with (<[n := F n]> (list_to_map (map (λ '(name, _), (name, F name)) l)
                           : gmap string Name)).
    change (((n, t) :: l).*1) with (n :: l.*1).
    destruct (decide (n = name)) as [->|Hne].
    + rewrite lookup_insert_eq. by rewrite decide_True by left.
    + rewrite lookup_insert_ne, IH by done.
      destruct (decide (name ∈ l.*1)) as [Hin|Hin].
      * by rewrite decide_True by (by right).
      * rewrite decide_False; [done|]. intros [?|?]%elem_of_cons; congruence.
Qed.

Lemma elem_of_namedTopLevels (topLevels : list (string * Type_)) (t : NamedType) :
  t ∈ namedTopLevels topLevels ↔
  ∃ name type, (name, type) ∈ topLevels ∧ namedTypeToNameForTopLevel type = Some t.
Proof.
  unfold namedTopLevels. rewrite list_elem_of_omap. split.
  - intros ([name type] & Hin & Ht). eauto.
  - intros (name & type & Hin & Ht). by exists (name, type).
Qed.

Section SetUp.
Variable typeNameStyle : string → string.
Variable topLevels : list (string * Type_).
Variables classes enums unions : list NamedType.

Let chosen := nameChosen typeNameStyle topLevels classes enums unions.

(** What holds of the renderer while the top levels are named. *)
Let naming (a : list string) (s : RendererState) : Prop :=
  annotations s = a ∧
  ∀ id n, namesForNamedTypes s !! id = Some n → chosen id n.

(** What holds of it while the other named types are named. *)
Let named (a : list string) (tl : gmap string Name) (s : RendererState) : Prop :=
  annotations s = a ∧ topLevelNames s = tl ∧
  (∀ id, id ∈ (typeId <$> namedTopLevels topLevels) →
     is_Some (namesForNamedTypes s !! id)) ∧
  ∀ id n, namesForNamedTypes s !! id = Some n → chosen id n.

Lemma nameForTopLevel_naming (a : list string) (name : string) (type : Type_)
    (s : RendererState) :
  (name, type) ∈ topLevels → naming a s →
  ∃ s', (nameForTopLevel typeNameStyle type name >>= λ n, pure (name, n)) s
        = Returned (name, FixedName (typeNameStyle name)) s' ∧ naming a s'.
Proof.
  intros Hin [Ha Hn]. unfold nameForTopLevel. simpl.
  destruct (namedTypeToNameForTopLevel type) as [t|] eqn:Ht; simpl.
  - eexists. split; [done|]. split; [done|]. simpl. intros id n.
    destruct (decide (typeId t = id)) as [<-|Hne].
    + rewrite lookup_insert_eq. intros [= <-]. left. eauto 10.
    + rewrite lookup_insert_ne by done. apply Hn.
  - eexists. split; [done|]. split; [done|]. apply Hn.
Qed.

Lemma addNamedForNamedType_named (a : list string) (tl : gmap string Name)
    (t : NamedType) (s : RendererState) :
  t ∈ classes ++ filter (λ u, unionNeedsName u = true) unions ++ enums →
  named a tl s →
  ∃ n s', addNamedForNamedType t s = Returned n s' ∧ named a tl s'.
Proof.
  intros Hin (Ha & Htl & Hdom & Hn). rewrite addNamedForNamedType_run.
  destruct (namesForNamedTypes s !! typeId t) as [existing|] eqn:Ht.
  - exists existing, s. done.
  - eexists _, _. split; [done|]. split; [done|]. split; [done|]. simpl. split.
    + intros id Hid. destruct (decide (typeId t = id)) as [<-|Hne].
      * rewrite lookup_insert_eq. eauto.
      * rewrite lookup_insert_ne by done. by apply Hdom.
    + intros id n. destruct (decide (typeId t = id)) as [<-|Hne].
      * rewrite lookup_insert_eq. intros [= <-]. right. split; [|eauto].
        intros Hid%Hdom. rewrite Ht in Hid. by destruct Hid.
      * rewrite lookup_insert_ne by done. apply Hn.
Qed.

(** [setUpNaming] returns and leaves the annotations as they were.  Every
    top level has a top-level name, the fixed name styled from its own
    name.  A named type that is a top level is named after a top level;
    every other class, union that needs a name, and enumeration has a
    simple name proposed from its combined name. *)
Theorem setUpNaming_names (s0 : RendererState) :
  ∃ s1,
    setUpNaming typeNameStyle topLevels classes enums unions s0 = Returned tt s1 ∧
    annotations s1 = annotations s0 ∧
    (∀ name, topLevelNames s1 !! name =
             if decide (name ∈ topLevels.*1)
             then Some (FixedName (typeNameStyle name)) else None) ∧
    ∀ id n, namesForNamedTypes s1 !! id = Some n →
            nameChosen typeNameStyle topLevels classes enums unions id n.
Proof.
  set (a := annotations s0).
  set (start := mkRendererState [] ∅ ∅ ∅ a).
  assert (naming a start) as Hstart.
  { split; [done|]. intros id n. simpl. by rewrite lookup_empty. }
  destruct (traverse_invariant
              (λ '(name, type), nameForTopLevel typeNameStyle type name >>= λ n, pure (name, n))
              (λ '(name, _), (name, FixedName (typeNameStyle name)))
              (naming a) topLevels) with (s := start)
    as (s1 & Htop & Ha1 & Hn1); [|done|].
  { intros [name type] s Hin Hs. by apply nameForTopLevel_naming. }
  assert (setUp start []) as Hsetup.
  { split.
    - intros id. simpl. rewrite lookup_empty.
      split; [by intros [? ?] | by intros ?%elem_of_nil].
    - intros id n. simpl. by rewrite lookup_empty. }
  destruct (topLevels_setUp typeNameStyle topLevels start [] Hsetup)
    as (named' & s1' & Htop' & [Hdom _] & _).
  rewrite Htop in Htop'. injection Htop' as <- <-.
  set (tl := list_to_map (map (λ '(name, _), (name, FixedName (typeNameStyle name)))
                            topLevels) : gmap string Name).
  set (s2 := mkRendererState (globalNamespace s1) tl (namesForNamedTypes s1)
               (propertyNames s1) (annotations s1)).
  assert (named a tl s2) as Hs2.
  { split; [done|]. split; [done|]. split; [|done].
    intros id Hid. apply Hdom. by rewrite app_nil_l. }
  destruct (for__invariant
              (λ c, addNamedForNamedType c >>= λ n, addPropertyNameds c n)
              (named a tl) classes) with (s := s2) as (s3 & Hclasses & Hs3); [|done|].
  { intros t s Hin Hs.
    destruct (addNamedForNamedType_named a tl t s) as (n & s' & Hn & Hs'); [|done|].
    { apply elem_of_app. by left. }
    simpl. rewrite Hn. destruct t; simpl; eauto. }
  assert (∀ l, (∀ t, t ∈ l →
                  t ∈ classes ++ filter (λ u, unionNeedsName u = true) unions ++ enums) →
            ∀ s, named a tl s →
              ∃ s', for_ l (λ u, addNamedForNamedType u >> pure tt) s = Returned tt s' ∧
                    named a tl s') as Hrest.
  { intros l Hl. apply for__invariant. intros t s Hin Hs.
    destruct (addNamedForNamedType_named a tl t s) as (n & s' & Hn & Hs'); [by apply Hl | done |].
    exists s'. simpl. by rewrite Hn. }
  destruct (Hrest (filter (λ u, unionNeedsName u = true) unions)) with (s := s3)
    as (s4 & Hunions & Hs4); [|done|].
  { intros t Ht. rewrite !elem_of_app. auto. }
  destruct (Hrest enums) with (s := s4) as (s5 & Henums & Ha5 & Htl5 & _ & Hn5); [|done|].
  { intros t Ht. rewrite !elem_of_app. auto. }
  exists s5. split.
  - unfold setUpNaming. simpl in *. fold a. fold start. rewrite Htop.
    fold tl. fold s2. by rewrite Hclasses, Hunions, Henums.
  - split; [done|]. split; [|done]. intros name. rewrite Htl5.
    apply (lookup_styled (λ name, FixedName (typeNameStyle name))).
Qed.

End SetUp.

End NamingFacts.

(** ** Filtering types *)

Module FilterFacts.
Import IRGraph Parts Kinds UnionProps UnionFacts ArenaProps RegatherProps RenderFacts.

Section Filter.
Context {A : Type} `{Countable A}.
Variable predicate : IRType → option A.

Lemma collected_cons (t : IRType) (l : list IRType) :
  collected predicate (t :: l) =
    match predicate t with
    | Some x => {[x]} ∪ collected predicate l
    | None => collected predicate l
    end.
Proof. unfold collected. simpl. by destruct (predicate t). Qed.

Lemma collected_app (l1 l2 : list IRType) :
  collected predicate (l1 ++ l2) = collected predicate l1 ∪ collected predicate l2.
Proof. unfold collected. by rewrite omap_app, list_to_set_app_L. Qed.

Lemma elem_of_collected (l : list IRType) (x : A) :
  x ∈ collected predicate l ↔ ∃ t, t ∈ l ∧ predicate t = Some x.
Proof. unfold collected. by rewrite elem_of_list_to_set, list_elem_of_omap. Qed.

Lemma unions_Some (f : IRType → option (gset A)) (g : IRType → gset A)
    (l : list IRType) :
  (∀ t, t ∈ l → f t = Some (g t)) → unions (map f l) = Some (⋃ (map g l)).
Proof.
  induction l as [|t l IH]; intros Hf; simpl; [done|].
  rewrite (Hf t) by left. rewrite IH; [done|]. intros t' Ht'. apply Hf. by right.
Qed.

Lemma union_list_collected (l : list IRType) :
  ⋃ (map (λ e, collected predicate (parts e)) l)
  = collected predicate (concat (map parts l)).
Proof.
  induction l as [|t l IH]; simpl; [done|]. by rewrite collected_app, IH.
Qed.

Lemma unions_elem_of (lo : list (option (gset A))) :
  (∀ o, o ∈ lo → is_Some o) →
  ∃ S, unions lo = Some S ∧ ∀ x, x ∈ S ↔ ∃ s, Some s ∈ lo ∧ x ∈ s.
Proof.
  induction lo as [|o lo IH]; intros Hlo; simpl.
  - exists ∅. split; [done|]. intros x. split; [set_solver|].
    by intros (s & ?%elem_of_nil & _).
  - destruct (Hlo o) as [s ->]; [by left|].
    destruct IH as (S & -> & HS); [intros o' Ho'; apply Hlo; by right|].
    exists (s ∪ S). split; [done|]. intros x. rewrite elem_of_union, HS. split.
    + intros [Hx|(s' & Hs' & Hx)]; [exists s | exists s']; split; auto; by constructor.
    + intros (s' & [[= ->]|Hs']%elem_of_cons & Hx); eauto.
Qed.

Lemma parts_primitivesOf (p : Z) :
  concat (map parts (primitivesOf p)) = primitivesOf p.
Proof.
  unfold primitivesOf.
  by destruct (isInPrimitives p irUnion_Null), (isInNumber p irUnion_Integer),
    (isInNumber p irUnion_Double), (isInPrimitives p irUnion_Bool),
    (isInPrimitives p irUnion_String).
Qed.

Lemma unionToList_primitivesOf n p a c m e :
  unionToList (mkIRUnionRep n p a c m e)
  = primitivesOf p ++ slot IRArray a ++ slot IRClass c ++ slot IRMap m.
Proof. rewrite unionToList_unfold. unfold primitivesOf. by rewrite <- !app_assoc. Qed.

(** The parts of a union are the union and the parts of what
    [unionToList] lists. *)
Lemma parts_union (u : IRUnionRep) :
  parts (IRUnion u) = IRUnion u :: concat (map parts (unionToList u)).
Proof.
  destruct u as [n p a c m e]. rewrite unionToList_primitivesOf.
  rewrite !map_app, !concat_app, parts_primitivesOf. simpl. do 2 f_equal.
  destruct a, c, m; simpl; by rewrite ?app_nil_r.
Qed.

Lemma filterType_leaf (fuel : nat) (t : IRType) :
  match t with IRArray _ | IRMap _ | IRUnion _ => False | _ => True end →
  filterType predicate (S fuel) t = Some (collected predicate (parts t)).
Proof.
  intros Ht. destruct t; try done; simpl; rewrite collected_cons;
    destruct (predicate _); reflexivity.
Qed.

Lemma filterType_collects t : ∀ fuel,
  (need t ≤ fuel)%nat → filterType predicate fuel t = Some (collected predicate (parts t)).
Proof.
  induction t as [| | | | | | |a IH|j|m IH| |n p a c m e IHa IHm] using IRType_nested_ind;
    intros [|fuel] Hfuel; simpl in Hfuel; try lia; try (by apply filterType_leaf).
  - simpl. rewrite IH by lia. rewrite (collected_cons (IRArray a)).
    by destruct (predicate (IRArray a)).
  - simpl. rewrite IH by lia. rewrite (collected_cons (IRMap m)).
    by destruct (predicate (IRMap m)).
  - destruct fuel as [|fuel]; [lia|].
    set (u := mkIRUnionRep n p a c m e).
    assert (unions (mapUnion (filterType predicate (S fuel)) u)
            = Some (collected predicate (concat (map parts (unionToList u))))) as Hrec.
    { rewrite mapUnion_map, <- union_list_collected. apply unions_Some.
      intros t. unfold u. rewrite unionToList_primitivesOf, !elem_of_app.
      intros [Ht|[Ht|[Ht|Ht]]].
      - apply filterType_leaf. unfold primitivesOf in Ht.
        rewrite !elem_of_app, !elem_of_when in Ht.
        by destruct Ht as [[_ ->]|[[_ ->]|[[_ ->]|[[_ ->]|[_ ->]]]]].
      - apply elem_of_slot in Ht as (x & -> & ->). simpl in IHa |- *.
        rewrite IHa by lia. rewrite (collected_cons (IRArray x)).
        by destruct (predicate (IRArray x)).
      - apply elem_of_slot in Ht as (x & -> & ->). by apply filterType_leaf.
      - apply elem_of_slot in Ht as (x & -> & ->). simpl in IHm |- *.
        rewrite IHm by lia. rewrite (collected_cons (IRMap x)).
        by destruct (predicate (IRMap x)). }
    rewrite parts_union, collected_cons.
    change (filterType predicate (S (S fuel)) (IRUnion u)) with
      (match unions (mapUnion (filterType predicate (S fuel)) u) with
       | None => None
       | Some l =>
           match predicate (IRUnion u) with
           | None => Some l
           | Some x => Some ({[ x ]} ∪ l)
           end
       end).
    rewrite Hrec. by destruct (predicate (IRUnion u)).
Qed.

(** With fuel for its nesting, [filterType] returns what the predicate
    finds in the parts of the type: the type, the element types of arrays
    and maps, and what [unionToList] lists of a union.  It does not follow
    class references and does not look at the enumeration slot of a
    union. *)
Theorem filterType_parts (t : IRType) (fuel : nat) :
  (need t ≤ fuel)%nat →
  ∃ S, filterType predicate fuel t = Some S ∧
       ∀ x, x ∈ S ↔ ∃ t', t' ∈ parts t ∧ predicate t' = Some x.
Proof.
  intros Hfuel. exists (collected predicate (parts t)).
  split; [by apply filterType_collects | apply elem_of_collected].
Qed.

Lemma values_elem_of (m : gmap string IRType) (t : IRType) :
  t ∈ (map_to_list m).*2 ↔ ∃ k, m !! k = Some t.
Proof.
  rewrite list_elem_of_fmap. split.
  - intros ([k t'] & -> & Hkt%elem_of_map_to_list). eauto.
  - intros (k & Hk). exists (k, t). split; [done | by apply elem_of_map_to_list].
Qed.

Lemma unions_filterType (m : gmap string IRType) (fuel : nat) :
  (∀ k t, m !! k = Some t → (need t ≤ fuel)%nat) →
  ∃ S, unions (map (filterType predicate fuel) (map_to_list m).*2) = Some S ∧
       ∀ x, x ∈ S ↔ ∃ k t t', m !! k = Some t ∧ t' ∈ parts t ∧ predicate t' = Some x.
Proof.
  intros Hneed.
  destruct (unions_elem_of (map (filterType predicate fuel) (map_to_list m).*2))
    as (S & HS & Hx).
  { change (map ?f ?l) with (f <$> l).
    intros o (t & -> & (k & Hk)%values_elem_of)%list_elem_of_fmap.
    rewrite filterType_collects; eauto. }
  exists S. split; [done|]. intros x. rewrite Hx.
  change (map ?f ?l) with (f <$> l). split.
  - intros (s & (t & Hs & (k & Hk)%values_elem_of)%list_elem_of_fmap & Hin).
    rewrite filterType_collects in Hs by eauto. injection Hs as ->.
    apply elem_of_collected in Hin as (t' & Ht' & Hp). eauto 10.
  - intros (k & t & t' & Hk & Ht' & Hp). exists (collected predicate (parts t)). split.
    + apply list_elem_of_fmap. exists t. rewrite filterType_collects by eauto.
      split; [done|]. apply values_elem_of. eauto.
    + apply elem_of_collected. eauto.
Qed.

(** With enough fuel, [filterTypes] returns what the predicate finds in
    the parts of the types of the top levels and of the properties of the
    live classes of the graph, and nothing else. *)
Theorem filterTypes_collects (g : IRGraph) :
  ∃ N, ∀ fuel, (N ≤ fuel)%nat →
    ∃ S, filterTypes predicate fuel g = Some S ∧
         ∀ x, x ∈ S ↔ ∃ t t', held g t ∧ t' ∈ parts t ∧ predicate t' = Some x.
Proof.
  set (all := (map_to_list (toplevels g)).*2 ++
              concat (mapClasses (λ _ cd, (map_to_list (properties cd)).*2) g)).
  exists (list_max (map need all)). intros fuel Hfuel.
  assert (∀ t, t ∈ all → (need t ≤ fuel)%nat) as Hall.
  { intros t Ht. etrans; [|exact Hfuel]. apply list_max_elem_of.
    change (map ?f ?l) with (f <$> l). apply list_elem_of_fmap. eauto. }
  destruct (unions_filterType (toplevels g) fuel) as (ST & HST & HxT).
  { intros k t Hk. apply Hall. apply elem_of_app. left. apply values_elem_of. eauto. }
  assert (∀ i cd, seqIndex i (classes g) = Some (Class cd) →
            ∀ k t, properties cd !! k = Some t → (need t ≤ fuel)%nat) as Hlive.
  { intros i cd Hi k t Hk. apply Hall. apply elem_of_app. right.
    apply elem_of_concat. exists (map_to_list (properties cd)).*2.
    split; [|apply values_elem_of; eauto]. apply elem_of_mapClasses. eauto. }
  destruct (unions_elem_of (mapClasses (λ _ cd, filterClass predicate fuel cd) g))
    as (SG & HSG & HxG).
  { intros o (i & cd & Hi & ->)%elem_of_mapClasses. unfold filterClass.
    destruct (unions_filterType (properties cd) fuel (Hlive i cd Hi)) as (S & -> & _).
    eauto. }
  exists (ST ∪ SG). split; [unfold filterTypes; by rewrite HST, HSG|].
  intros x. rewrite elem_of_union, HxT, HxG. unfold held. split.
  - intros [(k & t & t' & Hk & Ht' & Hp)|(s & (i & cd & Hi & Hs)%elem_of_mapClasses & Hin)].
    + exists t, t'. eauto.
    + unfold filterClass in Hs.
      destruct (unions_filterType (properties cd) fuel (Hlive i cd Hi)) as (S & HS & HxS).
      rewrite HS in Hs. injection Hs as ->.
      apply HxS in Hin as (k & t & t' & Hk & Ht' & Hp). exists t, t'. eauto 10.
  - intros (t & t' & [(k & Hk)|(i & cd & k & Hi & Hk)] & Ht' & Hp).
    + left. eauto 10.
    + right. destruct (unions_filterType (properties cd) fuel (Hlive i cd Hi))
        as (S & HS & HxS).
      exists S. split.
      * apply elem_of_mapClasses. exists i, cd. by rewrite <- HS.
      * apply HxS. eauto 10.
Qed.

End Filter.

Lemma filterType_parts_witness :
  let isClassRef t := match t with IRClass i => Some i | _ => None end in
  ∃ S, filterType isClassRef 3 (IRArray (IRArray (IRClass 4))) = Some S ∧
       ∀ x, x ∈ S ↔ ∃ t', t' ∈ parts (IRArray (IRArray (IRClass 4))) ∧ isClassRef t' = Some x.
Proof.
  intros isClassRef.
  apply (filterType_parts isClassRef (IRArray (IRArray (IRClass 4))) 3). simpl. lia.
Defined.

End FilterFacts.
